(** * vidhub: admission control and artifact lifecycle

    A shallow embedding of the Go services of the video download server:
    the per-client quota tracker ([QuotaService]), the per-client rate
    limiter ([RateLimitService]), the storage manager that tracks and
    reclaims downloaded files ([storage.Manager]) and the URL allow-list
    check ([validator.ValidateURL]).

    Conventions of the embedding.
    - Go's [int64] (and [int], 64 bits wide on the supported platforms) is
      a [Z] with the two's complement wrap-around written out ([wrap64]).
    - A [time.Time] is a [Z]: nanoseconds of local wall-clock time.  The
      location has a fixed offset from UTC, so a calendar day is exactly
      86400 seconds and [AddDate(0,0,1)] adds that much.
    - Every exported operation reads the clock once: all [time.Now()] calls
      inside one operation return the instant passed as [now].
    - Each service guards its map with a mutex; an operation is one atomic
      step on the map ([gmap string _]), the pointer stored in the map is
      the record itself. *)

From Stdlib Require Import ZArith Lia Ascii String List.
From stdpp Require Import base tactics option list gmap strings fin_maps.

Local Open Scope Z_scope.

(** ** Machine integers *)

Module GoInt.

Definition wrap64 (z : Z) : Z := (z + 2 ^ 63) mod 2 ^ 64 - 2 ^ 63.

Definition in_int64 (z : Z) : Prop := - 2 ^ 63 <= z < 2 ^ 63.

Definition add64 (a b : Z) : Z := wrap64 (a + b).
Definition sub64 (a b : Z) : Z := wrap64 (a - b).
Definition mul64 (a b : Z) : Z := wrap64 (a * b).

End GoInt.

(** ** Time *)

Module GoTime.

Definition Time := Z.

Definition Nanosecond : Z := 1.
Definition Second : Z := 1000000000.
Definition Minute : Z := 60 * Second.
Definition Hour : Z := 60 * Minute.
Definition Day : Z := 24 * Hour.

(** [t.After(u)] and [t.Before(u)] are strict. *)
Definition After (t u : Time) : bool := u <? t.
Definition Before (t u : Time) : bool := t <? u.

Definition Add (t : Time) (d : Z) : Time := t + d.

(** Midnight of the calendar day of [t]: the instant
    [time.Date(t.Year(), t.Month(), t.Day(), 0, 0, 0, 0, t.Location())]. *)
Definition start_of_day (t : Time) : Time := (t / Day) * Day.

(** [time.Date(t.Year(), t.Month(), t.Day(), hour, min, 0, 0, loc)];
    out-of-range hours and minutes are normalised by carrying, which the
    linear formula does as well. *)
Definition DateToday (t : Time) (hour min : Z) : Time :=
  start_of_day t + hour * Hour + min * Minute.

Definition AddDays (t : Time) (n : Z) : Time := t + n * Day.

(** [t.Sub(u)]: the difference as a [Duration], held at the largest or
    smallest [int64] when it does not fit. *)
Definition Sub (t u : Time) : Z := Z.max (- 2 ^ 63) (Z.min (2 ^ 63 - 1) (t - u)).

(** Some instants of day 20000 and of the day after, for the scenarios. *)
Definition noon : Time := 20000 * Day + 12 * Hour.

Definition midnight : Time := 20000 * Day.
Definition before_midnight : Time := 20000 * Day + 23 * Hour + 59 * Minute.
Definition next_midnight : Time := 20001 * Day.
Definition after_midnight : Time := 20001 * Day + 1 * Minute.

End GoTime.

Import GoInt GoTime.

(** ** Quota tracker (QuotaService) *)

Module Quota.

Record QuotaConfig := {
  Enabled : bool;
  DailyLimitMB : Z;
  ResetHour : Z;
  ResetMinute : Z
}.

Record QuotaEntry := {
  IP : string;
  UsedMB : Z;
  ResetTime : Time;
  LastUpdate : Time
}.

(** The [map[string]interface{}] built by [GetQuotaInfo]: either the single
    key [enabled = false] or the five keys of an enabled tracker. *)
Inductive QuotaInfo :=
| InfoDisabled
| InfoEnabled (used_mb limit_mb remaining_mb : Z) (reset_time : Time).

Section WithConfig.

Variable cfg : QuotaConfig.

Definition calculateResetTime (now : Time) : Time :=
  let resetTime := DateToday now (ResetHour cfg) (ResetMinute cfg) in
  if Before resetTime now then AddDays resetTime 1 else resetTime.

Definition CheckQuota (now : Time) (quotas : gmap string QuotaEntry)
    (ip : string) (requestedSizeMB : Z) : gmap string QuotaEntry * (bool * Z) :=
  if negb (Enabled cfg) then (quotas, (true, DailyLimitMB cfg))
  else
    let entry :=
      match quotas !! ip with
      | Some e => e
      | None => {| IP := ip; UsedMB := 0;
                   ResetTime := calculateResetTime now; LastUpdate := now |}
      end in
    let entry :=
      if After now (ResetTime entry)
      then {| IP := IP entry; UsedMB := 0;
              ResetTime := calculateResetTime now; LastUpdate := now |}
      else entry in
    let quotas := <[ip := entry]> quotas in
    let remaining := sub64 (DailyLimitMB cfg) (UsedMB entry) in
    if remaining <=? 0 then (quotas, (false, 0))
    else if remaining <? requestedSizeMB then (quotas, (false, remaining))
    else (quotas, (true, remaining)).

Definition AddUsage (now : Time) (quotas : gmap string QuotaEntry)
    (ip : string) (sizeMB : Z) : gmap string QuotaEntry :=
  if negb (Enabled cfg) then quotas
  else
    match quotas !! ip with
    | None =>
        <[ip := {| IP := ip; UsedMB := sizeMB;
                   ResetTime := calculateResetTime now; LastUpdate := now |}]> quotas
    | Some entry =>
        <[ip := {| IP := IP entry; UsedMB := add64 (UsedMB entry) sizeMB;
                   ResetTime := ResetTime entry; LastUpdate := now |}]> quotas
    end.

Definition GetQuotaInfo (now : Time) (quotas : gmap string QuotaEntry)
    (ip : string) : QuotaInfo :=
  if negb (Enabled cfg) then InfoDisabled
  else
    match quotas !! ip with
    | None =>
        InfoEnabled 0 (DailyLimitMB cfg) (DailyLimitMB cfg) (calculateResetTime now)
    | Some entry =>
        let remaining := sub64 (DailyLimitMB cfg) (UsedMB entry) in
        let remaining := if remaining <? 0 then 0 else remaining in
        InfoEnabled (UsedMB entry) (DailyLimitMB cfg) remaining (ResetTime entry)
    end.

(** The periodic sweep: every entry whose reset time has passed is reset.
    Entries are independent of each other, so the iteration order of the
    Go map does not show in the result. *)
Definition checkAndResetQuotas (now : Time) (quotas : gmap string QuotaEntry)
    : gmap string QuotaEntry :=
  (fun entry =>
     if After now (ResetTime entry)
     then {| IP := IP entry; UsedMB := 0;
             ResetTime := calculateResetTime now; LastUpdate := now |}
     else entry) <$> quotas.

(** A client's calls on one key, in program order. *)
Inductive quota_op :=
| Commit (t : Time) (sizeMB : Z)
| Check (t : Time) (requestedSizeMB : Z).

Definition op_time (o : quota_op) : Time :=
  match o with Commit t _ => t | Check t _ => t end.

Definition run_op (ip : string) (quotas : gmap string QuotaEntry) (o : quota_op)
    : gmap string QuotaEntry :=
  match o with
  | Commit t sz => AddUsage t quotas ip sz
  | Check t r => fst (CheckQuota t quotas ip r)
  end.

Definition run_ops (ip : string) (ops : list quota_op)
    (quotas : gmap string QuotaEntry) : gmap string QuotaEntry :=
  fold_left (run_op ip) ops quotas.

Fixpoint committed (ops : list quota_op) : Z :=
  match ops with
  | [] => 0
  | Commit _ sz :: ops => sz + committed ops
  | Check _ _ :: ops => committed ops
  end.

(** The instant at which the record of a fresh key is created: the time of
    the first call, or of the check itself when nothing preceded it. *)
Definition first_time (ops : list quota_op) (now : Time) : Time :=
  match ops with
  | [] => now
  | o :: _ => op_time o
  end.

(** What the headroom check answers for limit [L], usage [U], request [r]. *)
Definition headroom (L U r : Z) : bool * Z :=
  let remaining := L - U in
  if remaining <=? 0 then (false, 0)
  else if remaining <? r then (false, remaining)
  else (true, remaining).

End WithConfig.

(** The configuration of the end-to-end scenario: limit 100_000_000,
    reset at midnight. *)
Definition cfg_100M : QuotaConfig :=
  {| Enabled := true; DailyLimitMB := 100000000; ResetHour := 0; ResetMinute := 0 |}.

(** The two steps [CheckQuota] takes on the record of its key before it
    answers: the record made for a new key, and the reset of a record
    whose reset time has passed (the latter is also what the sweep does to
    every record). *)
Definition fresh_entry (cfg : QuotaConfig) (now : Time) (ip : string) : QuotaEntry :=
  {| IP := ip; UsedMB := 0; ResetTime := calculateResetTime cfg now; LastUpdate := now |}.

Definition reset_if_due (cfg : QuotaConfig) (now : Time) (entry : QuotaEntry)
    : QuotaEntry :=
  if After now (ResetTime entry)
  then {| IP := IP entry; UsedMB := 0;
          ResetTime := calculateResetTime cfg now; LastUpdate := now |}
  else entry.

(** Megabytes charged to a key; 0 for a key without a record. *)
Definition usage (quotas : gmap string QuotaEntry) (ip : string) : Z :=
  match quotas !! ip with
  | Some entry => UsedMB entry
  | None => 0
  end.

(** The calls and the check all fall inside the window of the key's record:
    none of them comes after the reset time of the record, which for a key
    without a record is the reset time computed at its first call. *)
Definition in_current_window (cfg : QuotaConfig) (quotas : gmap string QuotaEntry)
    (ip : string) (ops : list quota_op) (now : Time) : Prop :=
  let resetTime :=
    match quotas !! ip with
    | Some entry => ResetTime entry
    | None => calculateResetTime cfg (first_time ops now)
    end in
  Forall (fun o => op_time o <= resetTime) ops /\ now <= resetTime.

End Quota.

(** ** Rate limiter (RateLimitService) *)

Module RateLimit.

Record RateLimitConfig := {
  Enabled : bool;
  RequestsPerMinute : Z;
  BurstSize : Z;
  CleanupInterval : Z
}.

Record RateLimitEntry := {
  IP : string;
  Requests : Z;
  ResetAt : Time;
  Blocked : bool
}.

Section WithConfig.

Variable cfg : RateLimitConfig.

Definition IsAllowed (now : Time) (limits : gmap string RateLimitEntry)
    (ip : string) : gmap string RateLimitEntry * bool :=
  if negb (Enabled cfg) then (limits, true)
  else
    match limits !! ip with
    | None =>
        (<[ip := {| IP := ip; Requests := 1;
                    ResetAt := Add now Minute; Blocked := false |}]> limits, true)
    | Some entry =>
        if After now (ResetAt entry) then
          (<[ip := {| IP := IP entry; Requests := 1;
                      ResetAt := Add now Minute; Blocked := false |}]> limits, true)
        else if Blocked entry then (limits, false)
        else
          let requests := add64 (Requests entry) 1 in
          if RequestsPerMinute cfg <? requests then
            (<[ip := {| IP := IP entry; Requests := requests;
                        ResetAt := ResetAt entry; Blocked := true |}]> limits, false)
          else
            (<[ip := {| IP := IP entry; Requests := requests;
                        ResetAt := ResetAt entry; Blocked := false |}]> limits, true)
    end.

Definition AllowBurst (now : Time) (limits : gmap string RateLimitEntry)
    (ip : string) : gmap string RateLimitEntry * bool :=
  if negb (Enabled cfg) then (limits, true)
  else
    match limits !! ip with
    | None =>
        (<[ip := {| IP := ip; Requests := 1;
                    ResetAt := Add now Minute; Blocked := false |}]> limits, true)
    | Some entry =>
        if After now (ResetAt entry) then
          (<[ip := {| IP := IP entry; Requests := 1;
                      ResetAt := Add now Minute; Blocked := false |}]> limits, true)
        else if Blocked entry then (limits, false)
        else
          let requests := add64 (Requests entry) 1 in
          let limit := add64 (RequestsPerMinute cfg) (BurstSize cfg) in
          if limit <? requests then
            (<[ip := {| IP := IP entry; Requests := requests;
                        ResetAt := ResetAt entry; Blocked := true |}]> limits, false)
          else
            (<[ip := {| IP := IP entry; Requests := requests;
                        ResetAt := ResetAt entry; Blocked := false |}]> limits, true)
    end.

(** A request as the middleware sees it: which policy is asked, for which
    key, at what time. *)
Inductive policy := Plain | Burst.

Record call := { call_policy : policy; call_ip : string; call_time : Time }.

Definition run_call (limits : gmap string RateLimitEntry) (c : call)
    : gmap string RateLimitEntry * bool :=
  match call_policy c with
  | Plain => IsAllowed (call_time c) limits (call_ip c)
  | Burst => AllowBurst (call_time c) limits (call_ip c)
  end.

(** Runs the calls in order; the answers come back in the same order. *)
Fixpoint run_calls (cs : list call) (limits : gmap string RateLimitEntry)
    : gmap string RateLimitEntry * list bool :=
  match cs with
  | [] => (limits, [])
  | c :: cs =>
      let '(limits, b) := run_call limits c in
      let '(limits, bs) := run_calls cs limits in
      (limits, b :: bs)
  end.

Definition calls_at (p : policy) (ip : string) (ts : list Time) : list call :=
  map (fun t => {| call_policy := p; call_ip := ip; call_time := t |}) ts.

End WithConfig.

(** The configuration of the scenarios: 5 requests per minute, burst 2. *)
Definition cfg_5_2 : RateLimitConfig :=
  {| Enabled := true; RequestsPerMinute := 5; BurstSize := 2;
     CleanupInterval := 1800 |}.

(** The configuration [AllowBurst] effectively runs [IsAllowed] with. *)
Definition with_burst (cfg : RateLimitConfig) : RateLimitConfig :=
  {| Enabled := Enabled cfg;
     RequestsPerMinute := add64 (RequestsPerMinute cfg) (BurstSize cfg);
     BurstSize := BurstSize cfg;
     CleanupInterval := CleanupInterval cfg |}.

(** [GetRemaining]: a read under the read lock. *)
Definition GetRemaining (cfg : RateLimitConfig) (now : Time)
    (limits : gmap string RateLimitEntry) (ip : string) : Z :=
  if negb (Enabled cfg) then -1
  else
    match limits !! ip with
    | None => RequestsPerMinute cfg
    | Some entry =>
        if After now (ResetAt entry) then RequestsPerMinute cfg
        else
          let remaining := sub64 (RequestsPerMinute cfg) (Requests entry) in
          if remaining <? 0 then 0 else remaining
    end.

(** [cleanup]: every entry whose reset time lies more than two hours back
    is deleted while the map is walked; each entry is judged on its own. *)
Definition stale (now : Time) (entry : RateLimitEntry) : bool :=
  2 * Hour <? Sub now (ResetAt entry).

Definition cleanup (now : Time) (limits : gmap string RateLimitEntry)
    : gmap string RateLimitEntry :=
  filter (fun kv => stale now (snd kv) = false) limits.

Definition Reset (cfg : RateLimitConfig) (limits : gmap string RateLimitEntry)
    (ip : string) : gmap string RateLimitEntry :=
  if negb (Enabled cfg) then limits else delete ip limits.

(** [RateLimitMiddleware]: the request is either aborted with status 429
    or passed on, with the [X-RateLimit-Remaining] header when the value is
    not negative.  [IsAllowed] and [GetRemaining] are two operations, each
    with its own reading of the clock. *)
Inductive middleware_result :=
| TooManyRequests
| Next (remaining_header : option Z).

Definition RateLimitMiddleware (cfg : RateLimitConfig) (now now' : Time)
    (limits : gmap string RateLimitEntry) (ip : string)
    : gmap string RateLimitEntry * middleware_result :=
  let '(limits, allowed) := IsAllowed cfg now limits ip in
  if negb allowed then (limits, TooManyRequests)
  else
    let remaining := GetRemaining cfg now' limits ip in
    (limits, Next (if 0 <=? remaining then Some remaining else None)).

(** The answers given to one key, picked out of the answers to a run of
    calls. *)
Fixpoint answers_for (ip : string) (cs : list call) (bs : list bool) : list bool :=
  match cs, bs with
  | c :: cs, b :: bs =>
      if String.eqb (call_ip c) ip then b :: answers_for ip cs bs
      else answers_for ip cs bs
  | _, _ => []
  end.

Fixpoint calls_of (ip : string) (cs : list call) : list call :=
  match cs with
  | [] => []
  | c :: cs => if String.eqb (call_ip c) ip then c :: calls_of ip cs else calls_of ip cs
  end.

(** What holds of every record the limiter has written for [key]. *)
Definition well_formed (cfg : RateLimitConfig) (key : string)
    (e : RateLimitEntry) : Prop :=
  IP e = key /\
  1 <= Requests e <= RequestsPerMinute cfg + 1 /\
  (Blocked e = true <-> Requests e = RequestsPerMinute cfg + 1).

End RateLimit.

(** ** Storage manager (storage.Manager) *)

Module Storage.

Record StorageConfig := {
  DownloadDir : string;
  MaxVideoSizeMB : Z;
  CleanupInterval : Z;
  FileTTLSeconds : Z
}.

Record DownloadedFile := {
  ID : string;
  Filename : string;
  FilePath : string;
  Size : Z;
  CreatedAt : Time;
  ExpiresAt : Time;
  URL : string
}.

(** *** The file system as [os.Remove] sees it

    A path either names nothing, or a file that can be unlinked, or
    something whose removal the system refuses (no permission on the
    directory, a non-empty directory, a read-only mount). *)
Inductive fnode := Regular | Protected.

Inductive errno := ENOENT | EACCES.

Definition IsNotExist (e : errno) : bool :=
  match e with ENOENT => true | EACCES => false end.

Definition os_Remove (disk : gmap string fnode) (path : string)
    : gmap string fnode * option errno :=
  match disk !! path with
  | None => (disk, Some ENOENT)
  | Some Regular => (delete path disk, None)
  | Some Protected => (disk, Some EACCES)
  end.

(** *** The zap logger: structured entries, appended in order *)
Inductive level := DebugLevel | InfoLevel | WarnLevel | ErrorLevel.

Inductive field :=
| FString (key val : string)
| FInt (key : string) (val : Z)
| FError (err : errno).

Record log_entry := { lvl : level; msg : string; fields : list field }.

(** [logger.Logger] is a package-level pointer, nil until [logger.Init]. *)
Definition zap (logger : option (list log_entry)) (l : level) (m : string)
    (fs : list field) : option (list log_entry) :=
  (fun entries => entries ++ [{| lvl := l; msg := m; fields := fs |}]) <$> logger.

(** The manager's map together with the disk and the log it acts on. *)
Record World := {
  files : gmap string DownloadedFile;
  disk : gmap string fnode;
  logger : option (list log_entry)
}.

Section WithConfig.

Variable cfg : StorageConfig.

(** [time.Duration(m.cfg.FileTTLSeconds) * time.Second]: an [int64]
    product. *)
Definition ttl : Z := mul64 (FileTTLSeconds cfg) Second.

(** The call of [logger.Logger.Info] at the end of [SaveFile] is not
    guarded by a nil test; it comes after the map has been updated. *)
Definition SaveFile (now : Time) (id : string) (file : DownloadedFile)
    (w : World) : World :=
  let file := {| ID := id; Filename := Filename file; FilePath := FilePath file;
                 Size := Size file; CreatedAt := now;
                 ExpiresAt := Add now ttl; URL := URL file |} in
  {| files := <[id := file]> (files w);
     disk := disk w;
     logger := zap (logger w) InfoLevel "File saved"
                 [FString "id" id; FString "filename" (Filename file)] |}.

Definition GetFile (id : string) (w : World) : option DownloadedFile :=
  files w !! id.

(** The local variables of [cleanupExpiredFiles] while it walks the map. *)
Record sweep := {
  sw_disk : gmap string fnode;
  sw_logger : option (list log_entry);
  deletedIds : list string;
  deletedCount : Z;
  errorCount : Z
}.

Definition expired (now : Time) (file : DownloadedFile) : bool :=
  After now (ExpiresAt file).

(** Body of [for id, file := range m.files]. *)
Definition sweep_one (now : Time) (s : sweep) (kv : string * DownloadedFile)
    : sweep :=
  let '(id, file) := kv in
  if expired now file then
    let '(disk', err) := os_Remove (sw_disk s) (FilePath file) in
    match err with
    | Some e =>
        if negb (IsNotExist e) then
          {| sw_disk := disk';
             sw_logger := zap (sw_logger s) ErrorLevel "Failed to remove file"
                            [FString "id" id; FString "path" (FilePath file); FError e];
             deletedIds := deletedIds s ++ [id];
             deletedCount := deletedCount s;
             errorCount := add64 (errorCount s) 1 |}
        else
          {| sw_disk := disk';
             sw_logger := zap (sw_logger s) DebugLevel "File already deleted"
                            [FString "id" id; FString "path" (FilePath file)];
             deletedIds := deletedIds s ++ [id];
             deletedCount := deletedCount s;
             errorCount := errorCount s |}
    | None =>
        {| sw_disk := disk';
           sw_logger := zap (sw_logger s) InfoLevel "File removed by cleanup"
                          [FString "id" id; FString "path" (FilePath file)];
           deletedIds := deletedIds s ++ [id];
           deletedCount := add64 (deletedCount s) 1;
           errorCount := errorCount s |}
    end
  else s.

Definition sweep_init (w : World) : sweep :=
  {| sw_disk := disk w; sw_logger := logger w;
     deletedIds := []; deletedCount := 0; errorCount := 0 |}.

Definition sweep_all (now : Time) (order : list (string * DownloadedFile))
    (w : World) : sweep :=
  fold_left (sweep_one now) order (sweep_init w).

Definition delete_all (ids : list string) (m : gmap string DownloadedFile)
    : gmap string DownloadedFile :=
  fold_left (fun m id => delete id m) ids m.

(** [cleanupExpiredFiles], with the order in which [range] visits the map
    made explicit: Go leaves it unspecified, so [order] is any enumeration
    of the map. *)
Definition cleanupExpiredFiles_in (order : list (string * DownloadedFile))
    (now : Time) (w : World) : World :=
  let s := sweep_all now order w in
  let files' := delete_all (deletedIds s) (files w) in
  let logger' :=
    if (0 <? deletedCount s) || (0 <? errorCount s) then
      zap (sw_logger s) InfoLevel "Storage cleanup completed"
        [FInt "deleted_count" (deletedCount s);
         FInt "error_count" (errorCount s);
         FInt "remaining_tracked_files" (Z.of_nat (size files'))]
    else sw_logger s in
  {| files := files'; disk := sw_disk s; logger := logger' |}.

Definition cleanupExpiredFiles (now : Time) (w : World) : World :=
  cleanupExpiredFiles_in (map_to_list (files w)) now w.

(** The entry written when [os.Remove] fails for a file that exists. *)
Definition remove_failed (id path : string) (e : errno) : log_entry :=
  {| lvl := ErrorLevel; msg := "Failed to remove file";
     fields := [FString "id" id; FString "path" path; FError e] |}.

(** Successive runs of the sweep, at the given times. *)
Definition run_sweeps (ts : list Time) (w : World) : World :=
  fold_left (fun w t => cleanupExpiredFiles t w) ts w.

End WithConfig.

(** *** The cleanup goroutine and [Stop]

    [quitChan] is unbuffered: a send on it completes only while the
    receiver is parked in the [select] of [cleanupRoutine].  The routine is
    therefore in one of four places. *)
Inductive routine :=
| NotStarted   (* [Start] not called, or the goroutine not yet at its [select] *)
| Selecting    (* parked in [select], able to receive from [quitChan] *)
| Cleaning     (* inside [cleanupExpiredFiles] after a tick *)
| Returned.    (* received from [quitChan] and returned *)

Record System := { world : World; pc : routine }.

Inductive stop_outcome := Delivered | Dropped.

(** [Stop]: [select { case m.quitChan <- true: ... default: ... }].  The
    send case is taken exactly when the routine is parked at its receive;
    the routine then logs and returns.  Otherwise the [default] case runs
    and nothing is left in the channel. *)
Definition Stop (sys : System) : System * stop_outcome :=
  match pc sys with
  | Selecting =>
      ({| world := {| files := files (world sys); disk := disk (world sys);
                      logger := zap (logger (world sys)) InfoLevel
                                  "Storage cleanup routine stopped" [] |};
          pc := Returned |}, Delivered)
  | _ =>
      ({| world := {| files := files (world sys); disk := disk (world sys);
                      logger := zap (logger (world sys)) WarnLevel
                                  "Could not send stop signal to cleanup routine" [] |};
          pc := pc sys |}, Dropped)
  end.

(** Everything else that can happen to the manager. *)
Inductive event :=
| EvSchedule                                      (* the goroutine reaches its [select] *)
| EvTick                                          (* [ticker.C] fires and is received *)
| EvCleaned (now : Time)                          (* [cleanupExpiredFiles] finishes *)
| EvSave (now : Time) (id : string) (file : DownloadedFile).  (* a handler calls [SaveFile] *)

Definition step (cfg : StorageConfig) (sys : System) (ev : event) : System :=
  match ev, pc sys with
  | EvSchedule, NotStarted =>
      {| world := {| files := files (world sys); disk := disk (world sys);
                     logger := zap (logger (world sys)) InfoLevel
                                 "Storage cleanup routine started"
                                 [FInt "cleanup_interval_seconds" (CleanupInterval cfg);
                                  FInt "file_ttl_seconds" (FileTTLSeconds cfg)] |};
         pc := Selecting |}
  | EvTick, Selecting => {| world := world sys; pc := Cleaning |}
  | EvCleaned now, Cleaning =>
      {| world := cleanupExpiredFiles now (world sys); pc := Selecting |}
  | EvSave now id file, _ =>
      {| world := SaveFile cfg now id file (world sys); pc := pc sys |}
  | _, _ => sys
  end.

Definition run (cfg : StorageConfig) (evs : list event) (sys : System) : System :=
  fold_left (step cfg) evs sys.

(** [ValidateFileSize]: the ceiling is an [int64] product. *)
Definition maxSizeBytes (cfg : StorageConfig) : Z :=
  mul64 (mul64 (MaxVideoSizeMB cfg) 1024) 1024.

Definition ValidateFileSize (cfg : StorageConfig) (sizeBytes : Z) : bool :=
  sizeBytes <=? maxSizeBytes cfg.

Definition GetTrackedFilesCount (w : World) : Z := Z.of_nat (size (files w)).

(** [GetExpiredFilesCount]: a counter stepped while the map is walked. *)
Definition GetExpiredFilesCount_in (order : list (string * DownloadedFile))
    (now : Time) : Z :=
  fold_left (fun count kv => if expired now (snd kv) then add64 count 1 else count)
    order 0.

Definition GetExpiredFilesCount (now : Time) (w : World) : Z :=
  GetExpiredFilesCount_in (map_to_list (files w)) now.

(** [ManualCleanup] is [cleanupExpiredFiles] under another name. *)
Definition ManualCleanup (now : Time) (w : World) : World :=
  cleanupExpiredFiles now w.

(** Two systems that differ at most in what has been logged. *)
Definition same_store (s1 s2 : System) : Prop :=
  pc s1 = pc s2 /\
  files (world s1) = files (world s2) /\
  disk (world s1) = disk (world s2).

(** The scenario: files live for 60 seconds; four files saved at noon
    would expire at [noon + 60s].  On disk, the first can be unlinked, the
    second cannot, the third is already gone. *)
Definition cfg_ttl60 : StorageConfig :=
  {| DownloadDir := "./downloads"; MaxVideoSizeMB := 300;
     CleanupInterval := 30; FileTTLSeconds := 60 |}.

Definition sample_file (name : string) (created : Time) : DownloadedFile :=
  {| ID := name; Filename := name; FilePath := String.append "downloads/" name;
     Size := 1048576; CreatedAt := created; ExpiresAt := created + 60 * Second;
     URL := "https://youtu.be/x" |}.

Definition sample_world : World :=
  {| files := {[ "a" := sample_file "a" noon; "b" := sample_file "b" noon;
                 "c" := sample_file "c" noon;
                 "d" := sample_file "d" (noon + 5 * Minute) ]};
     disk := {[ "downloads/a" := Regular; "downloads/b" := Protected;
                "downloads/d" := Regular ]};
     logger := Some [] |}.

Definition empty_world : World :=
  {| files := ∅; disk := ∅; logger := Some [] |}.

End Storage.

(** ** URL allow-list (validator.ValidateURL) *)

Module Validator.

Local Open Scope string_scope.

(** [strings.HasPrefix], [strings.HasSuffix], [strings.Contains] on byte
    strings. *)
Fixpoint HasPrefix (s prefix : string) {struct prefix} : bool :=
  match prefix with
  | EmptyString => true
  | String c prefix =>
      match s with
      | EmptyString => false
      | String d s => if Ascii.eqb c d then HasPrefix s prefix else false
      end
  end.

Fixpoint HasSuffix (s suffix : string) : bool :=
  String.eqb s suffix ||
  match s with
  | EmptyString => false
  | String _ s => HasSuffix s suffix
  end.

Fixpoint Contains (s substr : string) : bool :=
  HasPrefix s substr ||
  match s with
  | EmptyString => false
  | String _ s => Contains s substr
  end.

(** [s[n:]] *)
Fixpoint slice_from (n : nat) (s : string) : string :=
  match n, s with
  | O, _ => s
  | S n, String _ s => slice_from n s
  | S _, EmptyString => EmptyString
  end.

(** ASCII strings: every byte is below 128.  On these a rune is a byte, and
    the Unicode-aware functions of Go's [strings] package ([ToLower],
    [TrimSpace], the conversion to [[]rune]) do what the byte-wise
    definitions below do.  The properties of [ValidateURL] and of
    [TruncateFilename] are stated for ASCII hosts, domains and names. *)
Definition is_ascii_byte (c : ascii) : bool := (N_of_ascii c <? 128)%N.

Fixpoint is_ascii (s : string) : bool :=
  match s with
  | EmptyString => true
  | String c s => is_ascii_byte c && is_ascii s
  end.

(** [strings.ToLower] on an ASCII string: the letters A to Z move down by
    32, every other byte stays. *)
Definition lower (c : ascii) : ascii :=
  let n := N_of_ascii c in
  if ((65 <=? n) && (n <=? 90))%N then ascii_of_N (n + 32) else c.

Fixpoint ToLower (s : string) : string :=
  match s with
  | EmptyString => EmptyString
  | String c s => String (lower c) (ToLower s)
  end.

(** [strings.TrimSpace] on an ASCII string.  The white space within ASCII
    is tab, line feed, vertical tab, form feed, carriage return, space. *)
Definition isSpace (c : ascii) : bool :=
  let n := N_of_ascii c in
  ((9 <=? n) && (n <=? 13) || (n =? 32))%N.

Fixpoint TrimLeft (s : string) : string :=
  match s with
  | EmptyString => EmptyString
  | String c s' => if isSpace c then TrimLeft s' else s
  end.

Fixpoint TrimRight (s : string) : string :=
  match s with
  | EmptyString => EmptyString
  | String c s' =>
      match TrimRight s' with
      | EmptyString => if isSpace c then EmptyString else String c EmptyString
      | r => String c r
      end
  end.

Definition TrimSpace (s : string) : string := TrimRight (TrimLeft s).

(** [ValidateFormatID]: between 1 and 50 bytes. *)
Definition ValidateFormatID (formatID : string) : bool :=
  if Nat.eqb (String.length formatID) 0 || Nat.ltb 50 (String.length formatID)
  then false else true.

(** [strings.ReplaceAll]: the occurrences of [old] are found from the left
    and do not overlap; an empty [old] matches before every byte and at the
    end.  The search consumes at least one byte per step, so the length of
    the string bounds the number of steps. *)
Fixpoint replace_from (fuel : nat) (s old new : string) : string :=
  match fuel with
  | O => s
  | S fuel =>
      if HasPrefix s old then new ++ replace_from fuel (slice_from (String.length old) s) old new
      else match s with
           | EmptyString => EmptyString
           | String c s' => String c (replace_from fuel s' old new)
           end
  end.

Fixpoint intersperse (new s : string) : string :=
  new ++ match s with
         | EmptyString => EmptyString
         | String c s' => String c (intersperse new s')
         end.

Definition ReplaceAll (s old new : string) : string :=
  if String.eqb old new then s
  else if Nat.eqb (String.length old) 0 then intersperse new s
  else replace_from (String.length s) s old new.

Definition dangerousChars : list string :=
  ["<"; ">"; ":"; String (ascii_of_nat 34) EmptyString; "/"; "\"; "|"; "?"; "*";
   String (ascii_of_nat 0) EmptyString].

Definition SanitizeFilename (filename : string) : string :=
  fold_left (fun result char => ReplaceAll result char "_") dangerousChars filename.

(** [strings.LastIndex]: the largest offset at which [substr] starts, or
    [-1]. *)
Fixpoint last_index (s substr : string) (i best : Z) : Z :=
  let best := if HasPrefix s substr then i else best in
  match s with
  | EmptyString => best
  | String _ s' => last_index s' substr (i + 1)%Z best
  end.

Definition LastIndex (s substr : string) : Z := last_index s substr 0%Z (-1)%Z.

Fixpoint take_bytes (n : nat) (s : string) : string :=
  match n, s with
  | S n, String c s => String c (take_bytes n s)
  | _, _ => EmptyString
  end.

(** [s[:n]]: a bound below 0 or beyond the length is a run-time fault. *)
Definition slice_to (n : Z) (s : string) : option string :=
  if ((n <? 0) || (Z.of_nat (String.length s) <? n))%Z then None
  else Some (take_bytes (Z.to_nat n) s).

(** [TruncateFilename] on an ASCII name, where [[]rune(filename)] has one
    rune per byte.  [None] is the fault of a slice bound out of range. *)
Definition TruncateFilename (filename : string) (maxLen : Z) : option string :=
  if (Z.of_nat (String.length filename) <=? maxLen)%Z then Some filename
  else
    let lastDot := LastIndex filename "." in
    if (lastDot =? -1)%Z then slice_to maxLen filename
    else
      let ext := slice_from (Z.to_nat lastDot) filename in
      let availableLen := sub64 maxLen (Z.of_nat (String.length ext)) in
      if (availableLen <=? 0)%Z then slice_to maxLen filename
      else
        match slice_to availableLen filename with
        | None => None
        | Some baseName => Some (baseName ++ ext)
        end.

(** The bytes [SanitizeFilename] replaces. *)
Definition is_dangerous (c : ascii) : bool :=
  existsb (String.eqb (String c EmptyString)) dangerousChars.

Fixpoint map_bytes (f : ascii -> ascii) (s : string) : string :=
  match s with
  | EmptyString => EmptyString
  | String c s => String (f c) (map_bytes f s)
  end.

(** A dangerous byte becomes an underscore, any other byte stays. *)
Definition sanitize_byte (c : ascii) : ascii :=
  if is_dangerous c then "_"%char else c.

Fixpoint all_bytes (P : ascii -> bool) (s : string) : bool :=
  match s with
  | EmptyString => true
  | String c s => P c && all_bytes P s
  end.

Section WithParser.

(** [net/url.Parse] belongs to the Go library: all the validator uses of
    it is whether it fails and, if not, the [Host] of the result. *)
Variable url_Parse : string -> option string.

(** The loop over [allowedDomains], for the normalised [host]. *)
Fixpoint match_domains (host : string) (allowedDomains : list string) : bool :=
  match allowedDomains with
  | [] => false
  | domain :: rest =>
      let cleanDomain := ToLower (TrimSpace domain) in
      if Nat.eqb (String.length cleanDomain) 0 then match_domains host rest
      else if String.eqb host cleanDomain
              || HasSuffix host ("." ++ cleanDomain)
              || Contains host cleanDomain
      then true
      else match_domains host rest
  end.

Definition normalise_host (host : string) : string :=
  let host := if HasPrefix host "www." then slice_from 4 host else host in
  ToLower host.

Definition ValidateURL (videoURL : string) (allowedDomains : list string) : bool :=
  match url_Parse videoURL with
  | None => false
  | Some host => match_domains (normalise_host host) allowedDomains
  end.

End WithParser.

(** [d] occurs in [s] as a contiguous run of bytes, anywhere. *)
Definition substring_of (d s : string) : Prop :=
  exists before after, s = before ++ d ++ after.

(** The host read the other way round: lowercased, then a leading ["www."]
    stripped.  ([normalise_host] strips first and lowercases after.) *)
Definition lowered_stripped (host : string) : string :=
  let host := ToLower host in
  if HasPrefix host "www." then slice_from 4 host else host.

End Validator.

(** ** The download handler's use of the services *)

Module Handler.

(** [DownloadService.GetFileSize]: the size of a tracked file, or the
    error [file not found]. *)
Definition GetFileSize (fileID : string) (w : Storage.World) : option Z :=
  match Storage.GetFile fileID w with
  | None => None
  | Some file => Some (Storage.Size file)
  end.

(** The size test at the head of [StartDownload]: only a positive
    announced size is compared with the ceiling.  [true] lets the request
    go on. *)
Definition sizeGate (cfg : Storage.StorageConfig) (fileSize : Z) : bool :=
  if 0 <? fileSize then negb (Storage.maxSizeBytes cfg <? fileSize) else true.

(** The quota test of [StartDownload], made before the size is known:
    [CheckQuota] with a request of 0, and the request is refused when the
    answer is [(false, 0)]. *)
Definition quotaGate (cfg : Quota.QuotaConfig) (now : Time)
    (quotas : gmap string Quota.QuotaEntry) (clientIP : string)
    : gmap string Quota.QuotaEntry * bool :=
  if Quota.Enabled cfg then
    let '(quotas, (allowed, remainingMB)) := Quota.CheckQuota cfg now quotas clientIP 0 in
    if negb allowed && (remainingMB =? 0) then (quotas, false) else (quotas, true)
  else (quotas, true).

(** Megabytes charged for a file: [fileSizeBytes / (1024 * 1024)], plus one
    when [fileSizeBytes%1024*1024 > 0], which Go reads as
    [(fileSizeBytes % 1024) * 1024 > 0]. *)
Definition fileSizeMB (fileSizeBytes : Z) : Z :=
  let mb := wrap64 (Z.quot fileSizeBytes (1024 * 1024)) in
  if 0 <? mul64 (wrap64 (Z.rem fileSizeBytes 1024)) 1024 then add64 mb 1 else mb.

(** The charge after a download: nothing when the size cannot be read or
    is not positive. *)
Definition chargeQuota (cfg : Quota.QuotaConfig) (now : Time)
    (quotas : gmap string Quota.QuotaEntry) (clientIP : string)
    (size : option Z) : gmap string Quota.QuotaEntry :=
  if Quota.Enabled cfg then
    match size with
    | Some fileSizeBytes =>
        if 0 <? fileSizeBytes
        then Quota.AddUsage cfg now quotas clientIP (fileSizeMB fileSizeBytes)
        else quotas
    | None => quotas
    end
  else quotas.

End Handler.

(** * Properties *)

(** ** Arithmetic and time *)

Section IntFacts.

Lemma wrap64_id z : in_int64 z -> wrap64 z = z.
Proof.
  unfold in_int64, wrap64. intros Hz.
  rewrite Z.mod_small by lia. lia.
Qed.

Lemma wrap64_shift z k : wrap64 (z + k * 2 ^ 64) = wrap64 z.
Proof.
  unfold wrap64.
  replace (z + k * 2 ^ 64 + 2 ^ 63) with (z + 2 ^ 63 + k * 2 ^ 64) by lia.
  now rewrite Z_mod_plus_full.
Qed.

Lemma wrap64_congr z : exists k, wrap64 z = z + k * 2 ^ 64.
Proof.
  exists (- ((z + 2 ^ 63) / 2 ^ 64)). unfold wrap64.
  rewrite Z.mod_eq by lia. lia.
Qed.

Lemma After_true t u : After t u = true <-> u < t.
Proof. unfold After. apply Z.ltb_lt. Qed.

Lemma After_false t u : After t u = false <-> t <= u.
Proof. unfold After. apply Z.ltb_ge. Qed.

Lemma start_of_day_bounds t : start_of_day t <= t < start_of_day t + Day.
Proof.
  unfold start_of_day.
  assert (HD : 0 < Day) by reflexivity.
  pose proof (Z.mul_div_le t Day HD).
  pose proof (Z.mul_succ_div_gt t Day HD). lia.
Qed.

End IntFacts.

(** ** Quota tracker *)

Section QuotaFacts.

Import Quota.

Variable cfg : QuotaConfig.
Hypothesis enabled : Enabled cfg = true.

Lemma calculateResetTime_cases now :
  calculateResetTime cfg now =
    if DateToday now (ResetHour cfg) (ResetMinute cfg) <? now
    then DateToday now (ResetHour cfg) (ResetMinute cfg) + Day
    else DateToday now (ResetHour cfg) (ResetMinute cfg).
Proof.
  unfold calculateResetTime, Before, AddDays.
  destruct (_ <? _); [f_equal; lia | reflexivity].
Qed.

(** A commit on an existing record adds to the usage and leaves the reset
    time alone, whatever the clock says. *)
Lemma AddUsage_existing now quotas ip sz e :
  quotas !! ip = Some e ->
  AddUsage cfg now quotas ip sz !! ip =
    Some {| IP := IP e; UsedMB := add64 (UsedMB e) sz;
            ResetTime := ResetTime e; LastUpdate := now |}.
Proof.
  intros He. unfold AddUsage. rewrite enabled, He. simpl.
  apply lookup_insert_eq.
Qed.

Lemma AddUsage_fresh now quotas ip sz :
  quotas !! ip = None ->
  AddUsage cfg now quotas ip sz !! ip =
    Some {| IP := ip; UsedMB := sz;
            ResetTime := calculateResetTime cfg now; LastUpdate := now |}.
Proof.
  intros He. unfold AddUsage. rewrite enabled, He. simpl.
  apply lookup_insert_eq.
Qed.

(** A check inside the window leaves the record as it is. *)
Lemma CheckQuota_in_window now quotas ip r e :
  quotas !! ip = Some e ->
  now <= ResetTime e ->
  fst (CheckQuota cfg now quotas ip r) !! ip = Some e /\
  snd (CheckQuota cfg now quotas ip r) =
    headroom (sub64 (DailyLimitMB cfg) (UsedMB e)) 0 r.
Proof.
  intros He Hwin. unfold CheckQuota, headroom.
  rewrite enabled, He. simpl.
  apply After_false in Hwin. rewrite Hwin.
  rewrite Z.sub_0_r.
  destruct (_ <=? 0); [|destruct (_ <? r)]; simpl;
    (split; [apply lookup_insert_eq | reflexivity]).
Qed.

(** A check past the reset time zeroes the usage and moves the window. *)
Lemma CheckQuota_past_window now quotas ip r e :
  quotas !! ip = Some e ->
  ResetTime e < now ->
  fst (CheckQuota cfg now quotas ip r) !! ip =
    Some {| IP := IP e; UsedMB := 0;
            ResetTime := calculateResetTime cfg now; LastUpdate := now |}.
Proof.
  intros He Hwin. unfold CheckQuota.
  rewrite enabled, He. simpl.
  apply After_true in Hwin. rewrite Hwin. simpl.
  destruct (_ <=? 0); [|destruct (_ <? r)]; simpl; apply lookup_insert_eq.
Qed.

Lemma CheckQuota_fresh now quotas ip r :
  quotas !! ip = None ->
  exists e,
    fst (CheckQuota cfg now quotas ip r) !! ip = Some e /\
    UsedMB e = 0 /\ ResetTime e = calculateResetTime cfg now /\
    snd (CheckQuota cfg now quotas ip r) = headroom (sub64 (DailyLimitMB cfg) 0) 0 r.
Proof.
  intros He. unfold CheckQuota, headroom.
  rewrite enabled, He. simpl.
  destruct (After now _); simpl; rewrite Z.sub_0_r;
    (destruct (_ <=? 0); [|destruct (_ <? r)]); simpl;
    eexists; (split; [apply lookup_insert_eq | auto]).
Qed.

(** Inside one window the stored usage is the sum of the commits, up to
    the wrap-around of [int64]. *)
Lemma run_ops_in_window ip ops : forall quotas e,
  quotas !! ip = Some e ->
  Forall (fun o => op_time o <= ResetTime e) ops ->
  exists e' k,
    run_ops cfg ip ops quotas !! ip = Some e' /\
    UsedMB e' = UsedMB e + committed ops + k * 2 ^ 64 /\
    ResetTime e' = ResetTime e.
Proof.
  induction ops as [|o ops IH]; intros quotas e He Hall.
  - exists e, 0. simpl. repeat split; [assumption | lia].
  - inversion Hall as [|? ? Ho Hops]; subst.
    destruct o as [t sz | t r]; simpl in *.
    + pose proof (AddUsage_existing t quotas ip sz e He) as H1.
      destruct (IH _ _ H1 Hops) as (e' & k & Hl & Hu & Hr).
      destruct (wrap64_congr (UsedMB e + sz)) as [k' Hk'].
      exists e', (k + k'). simpl in *. unfold add64 in Hu.
      repeat split; [exact Hl | lia | exact Hr].
    + destruct (CheckQuota_in_window t quotas ip r e He Ho) as [H1 _].
      destruct (IH _ _ H1 Hops) as (e' & k & Hl & Hu & Hr).
      exists e', k. repeat split; assumption.
Qed.

Lemma headroom_wrap L U k r :
  in_int64 (L - U) ->
  headroom (sub64 L (U + k * 2 ^ 64)) 0 r = headroom L U r.
Proof.
  intros Hr. unfold headroom, sub64.
  replace (L - (U + k * 2 ^ 64)) with (L - U + (- k) * 2 ^ 64) by lia.
  rewrite wrap64_shift, (wrap64_id _ Hr), Z.sub_0_r. reflexivity.
Qed.

(** The case of a key with no record yet: after any run of commits (and
    checks) that stays inside the window opened by the first call and
    commits [U] in total, [CheckQuota key r] answers from
    [remaining = L - U]. *)
Theorem check_headroom_after_commits ip ops quotas now r :
  quotas !! ip = None ->
  Forall (fun o => op_time o <= calculateResetTime cfg (first_time ops now)) ops ->
  now <= calculateResetTime cfg (first_time ops now) ->
  in_int64 (DailyLimitMB cfg - committed ops) ->
  snd (CheckQuota cfg now (run_ops cfg ip ops quotas) ip r) =
    headroom (DailyLimitMB cfg) (committed ops) r.
Proof.
  intros Hfresh Hall Hnow Hrange.
  destruct ops as [|o ops].
  - simpl in *.
    destruct (CheckQuota_fresh now quotas ip r Hfresh) as (e & _ & _ & _ & ->).
    replace 0 with (0 + 0 * 2 ^ 64) at 1 by lia.
    now apply headroom_wrap.
  - inversion Hall as [|? ? Ho Hops]; subst. simpl first_time in *.
    assert (exists e1, run_op cfg ip quotas o !! ip = Some e1 /\
              UsedMB e1 = committed [o] /\
              ResetTime e1 = calculateResetTime cfg (op_time o)) as (e1 & H1 & Hu1 & Hr1).
    { destruct o as [t sz | t r0]; simpl.
      - eexists. split; [apply AddUsage_fresh, Hfresh | simpl; split; [lia | reflexivity]].
      - destruct (CheckQuota_fresh t quotas ip r0 Hfresh) as (e & He & Hu & Hr & _).
        exists e. auto. }
    rewrite <- Hr1 in Hops, Hnow.
    destruct (run_ops_in_window ip ops _ _ H1 Hops) as (e' & k & Hl & Hu & Hr).
    rewrite <- Hr in Hnow.
    change (run_ops cfg ip (o :: ops) quotas)
      with (run_ops cfg ip ops (run_op cfg ip quotas o)).
    destruct (CheckQuota_in_window now _ ip r e' Hl Hnow) as [_ ->].
    rewrite Hu, Hu1.
    replace (committed [o] + committed ops) with (committed (o :: ops))
      by (destruct o; simpl; lia).
    now apply headroom_wrap.
Qed.

(** C1 (as the code has it). Quota enabled, daily limit [L], any key.  If
    the key has no record, or a record whose reset time has not passed, and
    the commits (and checks) that follow and the final check all come at or
    before the reset time of the record, then with [U] the usage of the
    record plus the commits, [CheckQuota key r] answers from
    [remaining = L - U]: [(false, 0)] when [remaining <= 0],
    [(false, remaining)] when [r > remaining], [(true, remaining)]
    otherwise.  [L - U] is an [int64] value. *)
Theorem check_headroom_in_current_window ip ops quotas now r :
  in_current_window cfg quotas ip ops now ->
  in_int64 (DailyLimitMB cfg - (usage quotas ip + committed ops)) ->
  snd (CheckQuota cfg now (run_ops cfg ip ops quotas) ip r) =
    headroom (DailyLimitMB cfg) (usage quotas ip + committed ops) r.
Proof.
  unfold in_current_window, usage. intros [Hall Hnow] Hrange.
  destruct (quotas !! ip) as [e|] eqn:He.
  - destruct (run_ops_in_window ip ops quotas e He Hall) as (e' & k & Hl & Hu & Hr).
    rewrite <- Hr in Hnow.
    destruct (CheckQuota_in_window now _ ip r e' Hl Hnow) as [_ ->].
    rewrite Hu. now apply headroom_wrap.
  - rewrite Z.add_0_l in *.
    destruct ops as [|o ops].
    + simpl in *.
      destruct (CheckQuota_fresh now quotas ip r He) as (e & _ & _ & _ & ->).
      replace 0 with (0 + 0 * 2 ^ 64) at 1 by lia.
      now apply headroom_wrap.
    + inversion Hall as [|? ? Ho Hops]; subst. simpl first_time in *.
      assert (exists e1, run_op cfg ip quotas o !! ip = Some e1 /\
                UsedMB e1 = committed [o] /\
                ResetTime e1 = calculateResetTime cfg (op_time o))
        as (e1 & H1 & Hu1 & Hr1).
      { destruct o as [t sz | t r0]; simpl.
        - eexists. split; [apply AddUsage_fresh, He | simpl; split; [lia | reflexivity]].
        - destruct (CheckQuota_fresh t quotas ip r0 He) as (e & He' & Hu & Hr & _).
          exists e. auto. }
      rewrite <- Hr1 in Hops, Hnow.
      destruct (run_ops_in_window ip ops _ _ H1 Hops) as (e' & k & Hl & Hu & Hr).
      rewrite <- Hr in Hnow.
      change (run_ops cfg ip (o :: ops) quotas)
        with (run_ops cfg ip ops (run_op cfg ip quotas o)).
      destruct (CheckQuota_in_window now _ ip r e' Hl Hnow) as [_ ->].
      rewrite Hu, Hu1.
      replace (committed [o] + committed ops) with (committed (o :: ops))
        by (destruct o; simpl; lia).
      now apply headroom_wrap.
Qed.

End QuotaFacts.

Section QuotaScenarios.

Import Quota.

(** The scenario of the specification, for a key without a record and for
    a key that already has 10_000_000 on its record. *)
Lemma check_headroom_in_current_window_witness :
  let ip := "203.0.113.9"%string in
  snd (CheckQuota cfg_100M (noon + Second)
         (run_ops cfg_100M ip [Commit noon 60000000] ∅) ip 50000000) =
    (false, 40000000) /\
  snd (CheckQuota cfg_100M (noon + 2 * Second)
         (run_ops cfg_100M ip [Commit noon 60000000; Check (noon + Second) 50000000] ∅)
         ip 30000000) = (true, 40000000) /\
  snd (CheckQuota cfg_100M (noon + 2 * Second)
         (run_ops cfg_100M ip [Commit (noon + Second) 50000000]
            (AddUsage cfg_100M noon ∅ ip 10000000))
         ip 50000000) = (false, 40000000).
Proof.
  intros ip. split; [|split].
  - rewrite (check_headroom_in_current_window cfg_100M eq_refl).
    + reflexivity.
    + split; [repeat constructor|]; vm_compute; discriminate.
    + vm_compute; split; [discriminate | reflexivity].
  - rewrite (check_headroom_in_current_window cfg_100M eq_refl).
    + reflexivity.
    + split; [repeat constructor|]; vm_compute; discriminate.
    + vm_compute; split; [discriminate | reflexivity].
  - rewrite (check_headroom_in_current_window cfg_100M eq_refl).
    + reflexivity.
    + split; [repeat constructor|]; vm_compute; discriminate.
    + vm_compute; split; [discriminate | reflexivity].
Defined.

(** C1 as specified fails for a key whose record is past its reset time.
    The record was made the day before and was to be reset at midnight.  At
    noon of the new day 60_000_000 is committed and a second later
    50_000_000 is asked for, both well before the next midnight.  [AddUsage]
    adds to the old record without resetting it, [CheckQuota] then resets
    the record and answers [(true, 100_000_000)], where [L - U] would give
    [(false, 40_000_000)]. *)
Lemma check_headroom_after_stale_record :
  let ip := "203.0.113.9"%string in
  let quotas := fst (CheckQuota cfg_100M before_midnight ∅ ip 0) in
  let t := next_midnight + 12 * Hour in
  usage quotas ip = 0 /\
  next_midnight < t /\ t + Second < next_midnight + Day /\
  snd (CheckQuota cfg_100M (t + Second) (AddUsage cfg_100M t quotas ip 60000000)
         ip 50000000) = (true, 100000000) /\
  snd (CheckQuota cfg_100M (t + Second) (AddUsage cfg_100M t quotas ip 60000000)
         ip 50000000) <> headroom 100000000 60000000 50000000.
Proof.
  vm_compute. repeat split; try reflexivity; intros H; discriminate H.
Qed.

Lemma check_headroom_scenario :
  snd (CheckQuota cfg_100M (noon + Second)
         (run_ops cfg_100M "203.0.113.9" [Commit noon 60000000] ∅)
         "203.0.113.9" 50000000) = (false, 40000000) /\
  snd (CheckQuota cfg_100M (noon + 2 * Second)
         (run_ops cfg_100M "203.0.113.9"
            [Commit noon 60000000; Check (noon + Second) 50000000] ∅)
         "203.0.113.9" 30000000) = (true, 40000000).
Proof.
  split.
  - rewrite (check_headroom_after_commits cfg_100M eq_refl).
    + reflexivity.
    + apply lookup_empty.
    + repeat constructor; vm_compute; discriminate.
    + vm_compute; discriminate.
    + vm_compute; split; [discriminate | reflexivity].
  - rewrite (check_headroom_after_commits cfg_100M eq_refl).
    + reflexivity.
    + apply lookup_empty.
    + repeat constructor; vm_compute; discriminate.
    + vm_compute; discriminate.
    + vm_compute; split; [discriminate | reflexivity].
Defined.


(** C7 (as the code has it). With the configured hour in 0..23 and minute
    in 0..59, [calculateResetTime] returns today's configured instant, moved
    one day ahead only if that instant is strictly before [now].  The result
    is never in the past, and it is strictly in the future unless the
    configured instant is [now] itself, in which case [now] is returned. *)
Theorem reset_time_next_instant (cfg : QuotaConfig) (now : Time) :
  0 <= ResetHour cfg < 24 ->
  0 <= ResetMinute cfg < 60 ->
  let next := DateToday now (ResetHour cfg) (ResetMinute cfg) in
  calculateResetTime cfg now = (if next <? now then next + Day else next) /\
  now <= calculateResetTime cfg now /\
  (next <> now -> now < calculateResetTime cfg now) /\
  (next = now -> calculateResetTime cfg now = now).
Proof.
  intros Hh Hm next. subst next.
  rewrite calculateResetTime_cases.
  pose proof (start_of_day_bounds now) as Hb.
  unfold DateToday in *.
  assert (HH : Hour = 3600000000000) by reflexivity.
  assert (HM : Minute = 60000000000) by reflexivity.
  assert (HD : Day = 86400000000000) by reflexivity.
  rewrite HH, HM, HD in *.
  destruct (Z.ltb_spec (start_of_day now + ResetHour cfg * 3600000000000
                        + ResetMinute cfg * 60000000000) now);
    repeat split; try lia.
Qed.

Lemma reset_time_next_instant_witness :
  calculateResetTime cfg_100M noon = next_midnight /\ noon < next_midnight.
Proof.
  pose proof (reset_time_next_instant cfg_100M noon) as H.
  destruct H as (H1 & _ & H3 & _).
  - vm_compute; split; [discriminate | reflexivity].
  - vm_compute; split; [discriminate | reflexivity].
  - split; [rewrite H1; reflexivity | reflexivity].
Defined.

(** C7, the boundary case as specified fails: at the configured instant itself
    today's instant is [<= now], yet no day is added and the result is
    [now], not a later instant. *)
Lemma reset_time_at_configured_instant :
  let next := DateToday midnight (ResetHour cfg_100M) (ResetMinute cfg_100M) in
  next <= midnight /\
  calculateResetTime cfg_100M midnight <> next + Day /\
  ~ midnight < calculateResetTime cfg_100M midnight.
Proof.
  vm_compute. repeat split; intros H; discriminate H.
Qed.

Section StatusFacts.

Variable cfg : QuotaConfig.
Hypothesis enabled : Enabled cfg = true.

Lemma checkAndResetQuotas_past_window now quotas ip e :
  quotas !! ip = Some e ->
  ResetTime e < now ->
  checkAndResetQuotas cfg now quotas !! ip =
    Some {| IP := IP e; UsedMB := 0;
            ResetTime := calculateResetTime cfg now; LastUpdate := now |}.
Proof.
  intros He Hwin. unfold checkAndResetQuotas.
  rewrite lookup_fmap, He. simpl.
  apply After_true in Hwin. now rewrite Hwin.
Qed.

Lemma GetQuotaInfo_existing now quotas ip e :
  quotas !! ip = Some e ->
  GetQuotaInfo cfg now quotas ip =
    InfoEnabled (UsedMB e) (DailyLimitMB cfg)
      (Z.max 0 (sub64 (DailyLimitMB cfg) (UsedMB e))) (ResetTime e).
Proof.
  intros He. unfold GetQuotaInfo. rewrite enabled, He. simpl.
  f_equal. destruct (Z.ltb_spec (sub64 (DailyLimitMB cfg) (UsedMB e)) 0); lia.
Qed.

(** C4 (as the code has it). [GetQuotaInfo] only reads: for a key with a
    record it reports the stored usage and the stored reset time, also when
    that reset time has passed.  The reset is done by [CheckQuota] and by
    the periodic sweep; once either has run past the reset time, the
    report shows usage 0 and the recomputed reset time, which for a reset
    at 00:00 and a read on the day after the old reset instant is one day
    later. *)
Theorem status_reports_stored_record now quotas ip e r :
  quotas !! ip = Some e ->
  GetQuotaInfo cfg now quotas ip =
    InfoEnabled (UsedMB e) (DailyLimitMB cfg)
      (Z.max 0 (sub64 (DailyLimitMB cfg) (UsedMB e))) (ResetTime e) /\
  (ResetTime e < now ->
     GetQuotaInfo cfg now (fst (CheckQuota cfg now quotas ip r)) ip =
       InfoEnabled 0 (DailyLimitMB cfg)
         (Z.max 0 (sub64 (DailyLimitMB cfg) 0)) (calculateResetTime cfg now) /\
     GetQuotaInfo cfg now (checkAndResetQuotas cfg now quotas) ip =
       InfoEnabled 0 (DailyLimitMB cfg)
         (Z.max 0 (sub64 (DailyLimitMB cfg) 0)) (calculateResetTime cfg now)) /\
  (ResetHour cfg = 0 -> ResetMinute cfg = 0 ->
     ResetTime e = start_of_day now -> ResetTime e < now ->
     calculateResetTime cfg now = ResetTime e + Day).
Proof.
  intros He. split; [|split].
  - now apply GetQuotaInfo_existing.
  - intros Hwin. split.
    + now rewrite (GetQuotaInfo_existing now _ ip _
                     (CheckQuota_past_window cfg enabled now quotas ip r e He Hwin)).
    + now rewrite (GetQuotaInfo_existing now _ ip _
                     (checkAndResetQuotas_past_window now quotas ip e He Hwin)).
  - intros Hh Hm Hday Hwin.
    rewrite calculateResetTime_cases. unfold DateToday.
    rewrite Hh, Hm, <- Hday.
    replace (ResetTime e + 0 * Hour + 0 * Minute) with (ResetTime e) by lia.
    apply Z.ltb_lt in Hwin. now rewrite Hwin.
Qed.

End StatusFacts.

Lemma status_reports_stored_record_witness :
  let ip := "203.0.113.9"%string in
  let quotas := AddUsage cfg_100M before_midnight ∅ ip 500 in
  GetQuotaInfo cfg_100M after_midnight quotas ip =
    InfoEnabled 500 100000000 99999500 next_midnight /\
  GetQuotaInfo cfg_100M after_midnight
    (fst (CheckQuota cfg_100M after_midnight quotas ip 0)) ip =
    InfoEnabled 0 100000000 100000000 (next_midnight + Day).
Proof.
  intros ip quotas.
  assert (He : quotas !! ip =
                 Some {| IP := ip; UsedMB := 500;
                         ResetTime := next_midnight; LastUpdate := before_midnight |})
    by (vm_compute; reflexivity).
  destruct (status_reports_stored_record cfg_100M eq_refl after_midnight
              quotas ip _ 0 He) as (H1 & H2 & H3).
  split.
  - rewrite H1. reflexivity.
  - destruct H2 as [H2 _]; [vm_compute; reflexivity|].
    rewrite H2. simpl ResetTime in H3.
    rewrite H3; [reflexivity | reflexivity | reflexivity
                | vm_compute; reflexivity | vm_compute; reflexivity].
Defined.

(** C4 as specified fails: a commit at 23:59 and a status read at 00:01 the
    next day, reset configured at 00:00.  The read still shows the 500
    committed the day before and the reset instant that has passed. *)
Lemma status_read_does_not_reset :
  let ip := "203.0.113.9"%string in
  let info := GetQuotaInfo cfg_100M after_midnight
                (AddUsage cfg_100M before_midnight ∅ ip 500) ip in
  info = InfoEnabled 500 100000000 99999500 next_midnight /\
  next_midnight < after_midnight /\
  ~ (exists remaining reset,
        info = InfoEnabled 0 100000000 remaining reset /\ after_midnight < reset).
Proof.
  vm_compute. split; [reflexivity | split; [reflexivity |]].
  intros (remaining & reset & H & _). discriminate H.
Qed.

End QuotaScenarios.

(** ** Rate limiter *)

Section RateFacts.

Import RateLimit.

Lemma AllowBurst_IsAllowed cfg now limits ip :
  AllowBurst cfg now limits ip = IsAllowed (with_burst cfg) now limits ip.
Proof. reflexivity. Qed.

Lemma run_call_with_burst cfg ip t limits :
  run_call cfg limits {| call_policy := Burst; call_ip := ip; call_time := t |} =
  run_call (with_burst cfg) limits
    {| call_policy := Plain; call_ip := ip; call_time := t |}.
Proof. reflexivity. Qed.

Lemma run_calls_with_burst cfg ip ts : forall limits,
  run_calls cfg (calls_at Burst ip ts) limits =
  run_calls (with_burst cfg) (calls_at Plain ip ts) limits.
Proof.
  induction ts as [|t ts IH]; intros limits; [reflexivity|].
  simpl. rewrite run_call_with_burst.
  destruct (run_call _ _ _) as [limits1 b]. now rewrite IH.
Qed.

Variable cfg : RateLimitConfig.
Hypothesis enabled : Enabled cfg = true.

Lemma IsAllowed_fresh now limits ip :
  limits !! ip = None ->
  IsAllowed cfg now limits ip =
    (<[ip := {| IP := ip; Requests := 1;
                ResetAt := now + Minute; Blocked := false |}]> limits, true).
Proof. intros He. unfold IsAllowed. now rewrite enabled, He. Qed.

Lemma IsAllowed_rollover now limits ip e :
  limits !! ip = Some e ->
  ResetAt e < now ->
  IsAllowed cfg now limits ip =
    (<[ip := {| IP := IP e; Requests := 1;
                ResetAt := now + Minute; Blocked := false |}]> limits, true).
Proof.
  intros He Hwin. unfold IsAllowed. rewrite enabled, He. simpl.
  apply After_true in Hwin. now rewrite Hwin.
Qed.

Lemma IsAllowed_blocked now limits ip e :
  limits !! ip = Some e ->
  now <= ResetAt e ->
  Blocked e = true ->
  IsAllowed cfg now limits ip = (limits, false).
Proof.
  intros He Hwin Hb. unfold IsAllowed. rewrite enabled, He. simpl.
  apply After_false in Hwin. now rewrite Hwin, Hb.
Qed.

Lemma IsAllowed_below now limits ip e :
  limits !! ip = Some e ->
  now <= ResetAt e ->
  Blocked e = false ->
  0 <= Requests e < RequestsPerMinute cfg ->
  RequestsPerMinute cfg < 2 ^ 63 ->
  IsAllowed cfg now limits ip =
    (<[ip := {| IP := IP e; Requests := Requests e + 1;
                ResetAt := ResetAt e; Blocked := false |}]> limits, true).
Proof.
  intros He Hwin Hb Hn Hmax. unfold IsAllowed. rewrite enabled, He. simpl.
  apply After_false in Hwin. rewrite Hwin, Hb.
  unfold add64. rewrite wrap64_id by (unfold in_int64; lia).
  destruct (Z.ltb_spec (RequestsPerMinute cfg) (Requests e + 1)); [lia | reflexivity].
Qed.

Lemma IsAllowed_trip now limits ip e :
  limits !! ip = Some e ->
  now <= ResetAt e ->
  Blocked e = false ->
  0 <= Requests e ->
  Requests e = RequestsPerMinute cfg ->
  RequestsPerMinute cfg < 2 ^ 63 - 1 ->
  IsAllowed cfg now limits ip =
    (<[ip := {| IP := IP e; Requests := Requests e + 1;
                ResetAt := ResetAt e; Blocked := true |}]> limits, false).
Proof.
  intros He Hwin Hb Hn Hlim Hmax. unfold IsAllowed. rewrite enabled, He. simpl.
  apply After_false in Hwin. rewrite Hwin, Hb.
  unfold add64. rewrite wrap64_id by (unfold in_int64; lia).
  destruct (Z.ltb_spec (RequestsPerMinute cfg) (Requests e + 1)); [reflexivity | lia].
Qed.

Lemma run_call_plain ip t limits :
  run_call cfg limits {| call_policy := Plain; call_ip := ip; call_time := t |} =
  IsAllowed cfg t limits ip.
Proof. reflexivity. Qed.

Lemma run_calls_cons c cs limits :
  run_calls cfg (c :: cs) limits =
    (fst (run_calls cfg cs (fst (run_call cfg limits c))),
     snd (run_call cfg limits c) :: snd (run_calls cfg cs (fst (run_call cfg limits c)))).
Proof.
  simpl. destruct (run_call cfg limits c) as [l1 b]. simpl.
  now destruct (run_calls cfg cs l1).
Qed.

(** While the count stays within the limit every call in the window is
    admitted and counted. *)
Lemma allowed_while_below ip ts : forall limits e,
  limits !! ip = Some e ->
  Blocked e = false ->
  Forall (fun t => t <= ResetAt e) ts ->
  0 <= Requests e ->
  Requests e + Z.of_nat (length ts) <= RequestsPerMinute cfg ->
  RequestsPerMinute cfg < 2 ^ 63 ->
  snd (run_calls cfg (calls_at Plain ip ts) limits) = repeat true (length ts) /\
  fst (run_calls cfg (calls_at Plain ip ts) limits) !! ip =
    Some {| IP := IP e; Requests := Requests e + Z.of_nat (length ts);
            ResetAt := ResetAt e; Blocked := false |}.
Proof.
  induction ts as [|t ts IH]; intros limits e He Hb Hall Hn Hlen Hmax.
  - simpl. split; [reflexivity|]. rewrite Z.add_0_r, He.
    destruct e; simpl in *; now subst.
  - inversion Hall as [|? ? Ht Hts]; subst.
    change (calls_at Plain ip (t :: ts))
      with ({| call_policy := Plain; call_ip := ip; call_time := t |}
              :: calls_at Plain ip ts).
    rewrite run_calls_cons, !run_call_plain. simpl length in *.
    rewrite (IsAllowed_below t limits ip e He Ht Hb) by lia. simpl fst. simpl snd.
    set (e1 := {| IP := IP e; Requests := Requests e + 1;
                  ResetAt := ResetAt e; Blocked := false |}).
    destruct (IH (<[ip := e1]> limits) e1) as [IH1 IH2];
      [apply lookup_insert_eq | reflexivity | exact Hts | simpl; lia
      | simpl; lia | exact Hmax |].
    simpl in IH1, IH2. rewrite IH1, IH2. split; [reflexivity|].
    do 2 f_equal. lia.
Qed.

(** From a key without a record, [n] calls in the window of the first one
    are admitted when [n] is at most the limit, and the count is [n]. *)
Lemma first_calls_allowed ip t ts limits :
  limits !! ip = None ->
  Forall (fun u => u <= t + Minute) ts ->
  1 + Z.of_nat (length ts) <= RequestsPerMinute cfg ->
  RequestsPerMinute cfg < 2 ^ 63 ->
  snd (run_calls cfg (calls_at Plain ip (t :: ts)) limits) =
    repeat true (S (length ts)) /\
  fst (run_calls cfg (calls_at Plain ip (t :: ts)) limits) !! ip =
    Some {| IP := ip; Requests := 1 + Z.of_nat (length ts);
            ResetAt := t + Minute; Blocked := false |}.
Proof.
  intros He Hall Hlen Hmax.
  change (calls_at Plain ip (t :: ts))
    with ({| call_policy := Plain; call_ip := ip; call_time := t |}
            :: calls_at Plain ip ts).
  rewrite run_calls_cons, !run_call_plain.
  rewrite (IsAllowed_fresh t limits ip He). simpl fst. simpl snd.
  set (e1 := {| IP := ip; Requests := 1;
                ResetAt := t + Minute; Blocked := false |}).
  destruct (allowed_while_below ip ts (<[ip := e1]> limits) e1) as [H1 H2];
    [apply lookup_insert_eq | reflexivity | exact Hall | simpl; lia
    | simpl; lia | exact Hmax |].
  simpl in H1, H2. rewrite H1, H2. split; reflexivity.
Qed.

Lemma calls_at_app p ip ts1 ts2 :
  calls_at p ip (ts1 ++ ts2) = calls_at p ip ts1 ++ calls_at p ip ts2.
Proof. apply map_app. Qed.

Lemma run_calls_app cs1 : forall cs2 limits,
  run_calls cfg (cs1 ++ cs2) limits =
    (fst (run_calls cfg cs2 (fst (run_calls cfg cs1 limits))),
     snd (run_calls cfg cs1 limits)
       ++ snd (run_calls cfg cs2 (fst (run_calls cfg cs1 limits)))).
Proof.
  induction cs1 as [|c cs1 IH]; intros cs2 limits.
  - simpl. now destruct (run_calls cfg cs2 limits).
  - rewrite <- app_comm_cons, !run_calls_cons, IH. reflexivity.
Qed.

(** The first [limit] calls of a window pass, the next one trips the
    block, and a call after the window has rolled over starts afresh. *)
Lemma limit_then_deny ip t ts t' t'' limits :
  limits !! ip = None ->
  Forall (fun u => u <= t + Minute) (ts ++ [t']) ->
  1 + Z.of_nat (length ts) = RequestsPerMinute cfg ->
  RequestsPerMinute cfg < 2 ^ 63 - 1 ->
  t + Minute < t'' ->
  let r := run_calls cfg (calls_at Plain ip (t :: ts ++ [t'])) limits in
  snd r = repeat true (S (length ts)) ++ [false] /\
  fst r !! ip = Some {| IP := ip; Requests := RequestsPerMinute cfg + 1;
                        ResetAt := t + Minute; Blocked := true |} /\
  IsAllowed cfg t'' (fst r) ip =
    (<[ip := {| IP := ip; Requests := 1;
                ResetAt := t'' + Minute; Blocked := false |}]> (fst r), true).
Proof.
  intros He Hall Hlen Hmax Hroll r. subst r.
  apply Forall_app in Hall as [Hts Ht']. apply Forall_inv in Ht'.
  destruct (first_calls_allowed ip t ts limits He Hts) as [H1 H2]; [lia | lia |].
  change (t :: ts ++ [t']) with ((t :: ts) ++ [t']).
  rewrite calls_at_app, run_calls_app.
  set (r1 := run_calls cfg (calls_at Plain ip (t :: ts)) limits) in *.
  cbn [fst snd]. rewrite H1.
  change (calls_at Plain ip [t'])
    with [{| call_policy := Plain; call_ip := ip; call_time := t' |}].
  rewrite run_calls_cons, !run_call_plain.
  rewrite (IsAllowed_trip t' (fst r1) ip _ H2 Ht' eq_refl) by (simpl; lia).
  cbn [run_calls fst snd Requests IP ResetAt].
  rewrite lookup_insert_eq, Hlen.
  split; [reflexivity | split; [reflexivity|]].
  set (e2 := {| IP := ip; Requests := RequestsPerMinute cfg + 1;
                ResetAt := t + Minute; Blocked := true |}).
  now rewrite (IsAllowed_rollover t'' (<[ip := e2]> (fst r1)) ip e2
                 (lookup_insert_eq _ _ _) Hroll).
Qed.

End RateFacts.

Section RateWindows.

Import RateLimit.

Lemma IsAllowed_other cfg now limits ip ip' :
  ip' <> ip ->
  fst (IsAllowed cfg now limits ip') !! ip = limits !! ip.
Proof.
  intros Hne. unfold IsAllowed.
  destruct (negb (Enabled cfg)); [reflexivity|].
  destruct (limits !! ip') as [e'|]; simpl;
    [|now rewrite lookup_insert_ne].
  destruct (After now (ResetAt e')); simpl; [now rewrite lookup_insert_ne|].
  destruct (Blocked e'); simpl; [reflexivity|].
  destruct (_ <? _); simpl; now rewrite lookup_insert_ne.
Qed.

Lemma run_call_other cfg limits c ip :
  call_ip c <> ip ->
  fst (run_call cfg limits c) !! ip = limits !! ip.
Proof.
  intros Hne. unfold run_call. destruct (call_policy c).
  - now apply IsAllowed_other.
  - rewrite AllowBurst_IsAllowed. now apply IsAllowed_other.
Qed.

Lemma run_call_blocked cfg limits c e :
  Enabled cfg = true ->
  limits !! call_ip c = Some e ->
  call_time c <= ResetAt e ->
  Blocked e = true ->
  run_call cfg limits c = (limits, false).
Proof.
  intros Hen He Hwin Hb. unfold run_call. destruct (call_policy c).
  - now apply (IsAllowed_blocked cfg Hen _ _ _ e).
  - rewrite AllowBurst_IsAllowed.
    now apply (IsAllowed_blocked (with_burst cfg) Hen _ _ _ e).
Qed.

Lemma run_call_rollover cfg limits p ip now e :
  Enabled cfg = true ->
  limits !! ip = Some e ->
  ResetAt e < now ->
  run_call cfg limits {| call_policy := p; call_ip := ip; call_time := now |} =
    (<[ip := {| IP := IP e; Requests := 1;
                ResetAt := now + Minute; Blocked := false |}]> limits, true).
Proof.
  intros Hen He Hwin. destruct p; unfold run_call; simpl.
  - now apply IsAllowed_rollover.
  - rewrite AllowBurst_IsAllowed. now apply (IsAllowed_rollover (with_burst cfg) Hen).
Qed.

(** C2. Rate limiting enabled with 5 requests per minute, a key without a
    record: five calls of [IsAllowed] in the window opened by the first one
    are admitted, the sixth call in that window is refused, and a call
    after the window's reset instant is admitted again, the record being
    reset to count 1, not blocked, reset instant [now] plus one minute. *)
Theorem allow_five_then_deny cfg ip limits t1 t2 t3 t4 t5 t6 t7 :
  Enabled cfg = true ->
  RequestsPerMinute cfg = 5 ->
  limits !! ip = None ->
  Forall (fun u => u <= t1 + Minute) [t2; t3; t4; t5; t6] ->
  t1 + Minute < t7 ->
  let r := run_calls cfg (calls_at Plain ip [t1; t2; t3; t4; t5; t6]) limits in
  snd r = [true; true; true; true; true; false] /\
  IsAllowed cfg t7 (fst r) ip =
    (<[ip := {| IP := ip; Requests := 1;
                ResetAt := t7 + Minute; Blocked := false |}]> (fst r), true).
Proof.
  intros Hen Hlim He Hall Hroll.
  destruct (limit_then_deny cfg Hen ip t1 [t2; t3; t4; t5] t6 t7 limits He Hall)
    as (H1 & _ & H3); [rewrite Hlim; reflexivity | rewrite Hlim; reflexivity
                      | exact Hroll |].
  split; [exact H1 | exact H3].
Qed.

(** C6. [AllowBurst] is [IsAllowed] run with the threshold
    [RequestsPerMinute + BurstSize]; with 5 requests per minute and a burst
    of 2, from a key without a record, seven calls in one window are
    admitted and the eighth is refused. *)
Theorem burst_allows_seven cfg ip limits t1 t2 t3 t4 t5 t6 t7 t8 :
  Enabled cfg = true ->
  RequestsPerMinute cfg = 5 ->
  BurstSize cfg = 2 ->
  limits !! ip = None ->
  Forall (fun u => u <= t1 + Minute) [t2; t3; t4; t5; t6; t7; t8] ->
  snd (run_calls cfg (calls_at Burst ip [t1; t2; t3; t4; t5; t6; t7; t8]) limits) =
    [true; true; true; true; true; true; true; false] /\
  RequestsPerMinute (with_burst cfg) = 5 + 2 /\
  (forall now limits' key,
     AllowBurst cfg now limits' key = IsAllowed (with_burst cfg) now limits' key).
Proof.
  intros Hen Hlim Hburst He Hall.
  assert (Hsum : RequestsPerMinute (with_burst cfg) = 7)
    by (simpl; rewrite Hlim, Hburst; reflexivity).
  split; [|split; [exact Hsum | intros; apply AllowBurst_IsAllowed]].
  rewrite run_calls_with_burst.
  destruct (limit_then_deny (with_burst cfg) Hen ip t1 [t2; t3; t4; t5; t6; t7] t8
              (t1 + Minute + 1) limits He Hall)
    as (H1 & _ & _); [rewrite Hsum; reflexivity | rewrite Hsum; reflexivity
                     | lia |].
  exact H1.
Qed.

(** C5. Once a record is blocked, every further call on its key up to the
    window's reset instant, by [IsAllowed] or by [AllowBurst] and however
    calls on other keys are interleaved, is refused and leaves the record
    as it is, so the flag stays set.  The first call after the reset
    instant is admitted: it restarts the count (at 1, this call), clears
    the flag and sets the reset instant to [now] plus one minute. *)
Theorem blocked_is_latched cfg ip cs : forall limits e,
  Enabled cfg = true ->
  limits !! ip = Some e ->
  Blocked e = true ->
  Forall (fun c => call_ip c = ip -> call_time c <= ResetAt e) cs ->
  let r := run_calls cfg cs limits in
  fst r !! ip = Some e /\
  (forall i c, cs !! i = Some c -> call_ip c = ip -> snd r !! i = Some false) /\
  (forall p now, ResetAt e < now ->
     run_call cfg (fst r) {| call_policy := p; call_ip := ip; call_time := now |} =
       (<[ip := {| IP := IP e; Requests := 1;
                   ResetAt := now + Minute; Blocked := false |}]> (fst r), true)).
Proof.
  induction cs as [|c cs IH]; intros limits e Hen He Hb Hall r; subst r.
  - simpl. split; [exact He | split].
    + intros i c Hi. now rewrite lookup_nil in Hi.
    + intros p now Hroll. now apply run_call_rollover.
  - inversion Hall as [|? ? Hc Hcs]; subst.
    rewrite (run_calls_cons cfg).
    assert (H1 : fst (run_call cfg limits c) !! ip = Some e /\
                 (call_ip c = ip -> snd (run_call cfg limits c) = false)).
    { destruct (decide (call_ip c = ip)) as [Heq|Hne].
      - rewrite (run_call_blocked cfg limits c e Hen); [auto | now rewrite Heq | auto | auto].
      - split; [now rewrite run_call_other | intros; contradiction]. }
    destruct H1 as [H1 H1'].
    destruct (IH _ e Hen H1 Hb Hcs) as (IH1 & IH2 & IH3).
    cbn [fst snd]. split; [exact IH1 | split; [|exact IH3]].
    intros [|i] c' Hi Hip; simpl in Hi.
    + injection Hi as <-. simpl. f_equal. now apply H1'.
    + simpl. now apply (IH2 i c').
Qed.

Lemma allow_five_then_deny_witness :
  let ip := "198.51.100.4"%string in
  let r := run_calls cfg_5_2
             (calls_at Plain ip
                [noon; noon + 1 * Second; noon + 2 * Second; noon + 3 * Second;
                 noon + 4 * Second; noon + Minute]) ∅ in
  snd r = [true; true; true; true; true; false] /\
  snd (IsAllowed cfg_5_2 (noon + Minute + 1) (fst r) ip) = true.
Proof.
  intros ip r.
  destruct (allow_five_then_deny cfg_5_2 ip ∅ noon (noon + 1 * Second)
              (noon + 2 * Second) (noon + 3 * Second) (noon + 4 * Second)
              (noon + Minute) (noon + Minute + 1)) as [H1 H2].
  - reflexivity.
  - reflexivity.
  - apply lookup_empty.
  - repeat constructor; vm_compute; discriminate.
  - vm_compute; reflexivity.
  - split; [exact H1 | exact (f_equal snd H2)].
Defined.

Lemma burst_allows_seven_witness :
  snd (run_calls cfg_5_2
         (calls_at Burst "198.51.100.4"
            [noon; noon + 1 * Second; noon + 2 * Second; noon + 3 * Second;
             noon + 4 * Second; noon + 5 * Second; noon + 6 * Second;
             noon + 7 * Second]) ∅) =
    [true; true; true; true; true; true; true; false].
Proof.
  apply (burst_allows_seven cfg_5_2 "198.51.100.4" ∅).
  - reflexivity.
  - reflexivity.
  - reflexivity.
  - apply lookup_empty.
  - repeat constructor; vm_compute; discriminate.
Defined.

Lemma blocked_is_latched_witness :
  let ip := "198.51.100.4"%string in
  let e := {| IP := ip; Requests := 6; ResetAt := noon + Minute; Blocked := true |} in
  let r := run_calls cfg_5_2
             [ {| call_policy := Plain; call_ip := ip; call_time := noon + 10 * Second |};
               {| call_policy := Burst; call_ip := "198.51.100.77";
                  call_time := noon + 11 * Second |};
               {| call_policy := Burst; call_ip := ip; call_time := noon + Minute |} ]
             {[ ip := e ]} in
  fst r !! ip = Some e /\
  snd r !! 0%nat = Some false /\ snd r !! 2%nat = Some false /\
  snd (run_call cfg_5_2 (fst r)
         {| call_policy := Plain; call_ip := ip; call_time := noon + Minute + 1 |}) = true.
Proof.
  intros ip e r.
  destruct (blocked_is_latched cfg_5_2 ip
              [ {| call_policy := Plain; call_ip := ip; call_time := noon + 10 * Second |};
                {| call_policy := Burst; call_ip := "198.51.100.77";
                   call_time := noon + 11 * Second |};
                {| call_policy := Burst; call_ip := ip; call_time := noon + Minute |} ]
              {[ ip := e ]} e) as (H1 & H2 & H3).
  - reflexivity.
  - apply lookup_singleton_eq.
  - reflexivity.
  - repeat constructor; intros _; vm_compute; discriminate.
  - unfold r. split; [exact H1 | split; [|split]].
    + now apply (H2 0%nat _ eq_refl).
    + now apply (H2 2%nat _ eq_refl).
    + refine (f_equal snd (H3 Plain (noon + Minute + 1) _)). vm_compute; reflexivity.
Defined.

End RateWindows.

(** ** Storage manager *)

Section StorageFacts.

Import Storage.

Lemma delete_all_in ids : forall (m : gmap string DownloadedFile) id,
  id ∈ ids -> delete_all ids m !! id = None.
Proof.
  induction ids as [|i ids IH] using rev_ind; intros m id Hin.
  - now apply elem_of_nil in Hin.
  - unfold delete_all in *. rewrite fold_left_app. simpl.
    destruct (decide (id = i)) as [->|Hne]; [apply lookup_delete_eq|].
    rewrite lookup_delete_ne by congruence.
    apply IH. apply elem_of_app in Hin as [Hin|Hin]; [exact Hin|].
    apply list_elem_of_singleton in Hin. contradiction.
Qed.

Lemma delete_all_notin ids : forall (m : gmap string DownloadedFile) id,
  id ∉ ids -> delete_all ids m !! id = m !! id.
Proof.
  induction ids as [|i ids IH]; intros m id Hin; [reflexivity|].
  apply not_elem_of_cons in Hin as [Hne Hin].
  unfold delete_all in *. simpl. rewrite IH by exact Hin.
  now apply lookup_delete_ne.
Qed.

Lemma os_Remove_protected d path p :
  fst (os_Remove d path) !! p = Some Protected <-> d !! p = Some Protected.
Proof.
  unfold os_Remove. destruct (d !! path) as [[|]|] eqn:E; simpl; try tauto.
  destruct (decide (p = path)) as [->|Hne].
  - rewrite lookup_delete_eq, E. split; discriminate.
  - now rewrite lookup_delete_ne by congruence.
Qed.

(** What one iteration of the loop does to each local variable. *)
Lemma sweep_one_live now s id f :
  expired now f = false -> sweep_one now s (id, f) = s.
Proof. intros H. unfold sweep_one. now rewrite H. Qed.

Lemma sweep_one_ids now s id f :
  expired now f = true ->
  deletedIds (sweep_one now s (id, f)) = deletedIds s ++ [id].
Proof.
  intros H. unfold sweep_one. rewrite H.
  destruct (os_Remove _ _) as [d [[|]|]]; reflexivity.
Qed.

Lemma sweep_one_disk now s id f :
  expired now f = true ->
  sw_disk (sweep_one now s (id, f)) = fst (os_Remove (sw_disk s) (FilePath f)).
Proof.
  intros H. unfold sweep_one. rewrite H.
  destruct (os_Remove _ _) as [d [[|]|]]; reflexivity.
Qed.

Lemma sweep_one_log now s id f :
  expired now f = true ->
  exists ent,
    sw_logger (sweep_one now s (id, f)) = (fun l => l ++ [ent]) <$> sw_logger s /\
    (sw_disk s !! FilePath f = Some Protected ->
       ent = remove_failed id (FilePath f) EACCES) /\
    (lvl ent = ErrorLevel ->
       sw_disk s !! FilePath f = Some Protected /\
       ent = remove_failed id (FilePath f) EACCES).
Proof.
  intros H. unfold sweep_one, os_Remove. rewrite H.
  destruct (sw_disk s !! FilePath f) as [[|]|]; simpl;
    (eexists; split; [reflexivity|]); simpl;
    split; try discriminate; auto.
Qed.

Lemma sweep_one_protected now s kv p :
  sw_disk (sweep_one now s kv) !! p = Some Protected <->
  sw_disk s !! p = Some Protected.
Proof.
  destruct kv as [id f]. destruct (expired now f) eqn:E.
  - rewrite sweep_one_disk by exact E. apply os_Remove_protected.
  - now rewrite sweep_one_live.
Qed.

Lemma sweep_ids now order : forall s id,
  id ∈ deletedIds (fold_left (sweep_one now) order s) <->
  id ∈ deletedIds s \/ exists f, (id, f) ∈ order /\ expired now f = true.
Proof.
  induction order as [|[i f] order IH]; intros s id; cbn [fold_left].
  - split; [auto | intros [H|(f & H & _)]; [exact H | now apply elem_of_nil in H]].
  - rewrite IH. destruct (expired now f) eqn:E.
    + rewrite sweep_one_ids, elem_of_app, list_elem_of_singleton by exact E.
      split.
      * intros [[H| ->]|(f' & H & He)]; [auto | right; exists f | right; exists f'];
          (split; [|assumption]); [left | now right].
      * intros [H|(f' & H & He)]; [auto|].
        apply elem_of_cons in H as [H|H]; [injection H as -> ->; auto|].
        right. now exists f'.
    + rewrite sweep_one_live by exact E. split.
      * intros [H|(f' & H & He)]; [auto|]. right. exists f'. split; [now right | exact He].
      * intros [H|(f' & H & He)]; [auto|].
        apply elem_of_cons in H as [H|H]; [injection H as -> ->; congruence|].
        right. now exists f'.
Qed.

(** The log of the loop: the entries are appended, one per expired record;
    the error entries are exactly those of expired records whose file is
    there and cannot be removed. *)
Lemma sweep_log now order : forall s,
  exists new,
    sw_logger (fold_left (sweep_one now) order s) = (fun l => l ++ new) <$> sw_logger s /\
    (forall id f, (id, f) ∈ order -> expired now f = true ->
       sw_disk s !! FilePath f = Some Protected ->
       remove_failed id (FilePath f) EACCES ∈ new) /\
    (forall ent, ent ∈ new -> lvl ent = ErrorLevel ->
       exists id f, (id, f) ∈ order /\ expired now f = true /\
         sw_disk s !! FilePath f = Some Protected /\
         ent = remove_failed id (FilePath f) EACCES).
Proof.
  induction order as [|[i f] order IH]; intros s; cbn [fold_left].
  - exists []. split; [|split].
    + destruct (sw_logger s); simpl; [now rewrite app_nil_r | reflexivity].
    + intros id f H. now apply elem_of_nil in H.
    + intros ent H. now apply elem_of_nil in H.
  - destruct (IH (sweep_one now s (i, f))) as (new & Hlog & Hin & Hout).
    destruct (expired now f) eqn:E.
    + destruct (sweep_one_log now s i f E) as (ent & Hent & Hprot & Herr).
      exists (ent :: new). split; [|split].
      * rewrite Hlog, Hent. destruct (sw_logger s); simpl; [|reflexivity].
        now rewrite <- app_assoc.
      * intros id f' H He Hp. apply elem_of_cons in H as [H|H].
        -- injection H as -> ->. rewrite (Hprot Hp). now left.
        -- right. apply (Hin id f' H He). now apply sweep_one_protected.
      * intros x Hx Hlvl. apply elem_of_cons in Hx as [->|Hx].
        -- destruct (Herr Hlvl) as [Hp ->]. exists i, f.
           repeat split; [now left | exact E | exact Hp].
        -- destruct (Hout x Hx Hlvl) as (id & f' & H1 & H2 & H3 & H4).
           exists id, f'. repeat split; [now right | exact H2 | | exact H4].
           now apply (sweep_one_protected now s (i, f)).
    + rewrite sweep_one_live in * by exact E.
      exists new. split; [exact Hlog | split].
      * intros id f' H He Hp. apply elem_of_cons in H as [H|H].
        -- injection H as -> ->. congruence.
        -- now apply (Hin id f').
      * intros x Hx Hlvl.
        destruct (Hout x Hx Hlvl) as (id & f' & H1 & H2 & H3 & H4).
        exists id, f'. repeat split; [now right | exact H2 | exact H3 | exact H4].
Qed.

(** The map after a sweep, for any order of iteration. *)
Lemma cleanup_files order now w id :
  order ≡ₚ map_to_list (files w) ->
  files (cleanupExpiredFiles_in order now w) !! id =
    match files w !! id with
    | Some f => if expired now f then None else Some f
    | None => None
    end.
Proof.
  intros Hperm. unfold cleanupExpiredFiles_in, sweep_all. simpl.
  assert (Hmem : forall f, (id, f) ∈ order <-> files w !! id = Some f).
  { intros f. rewrite Hperm. apply elem_of_map_to_list. }
  assert (Hids : id ∈ deletedIds (fold_left (sweep_one now) order (sweep_init w)) <->
                 exists f, files w !! id = Some f /\ expired now f = true).
  { rewrite sweep_ids. simpl. split.
    - intros [H|(f & H & He)]; [now apply elem_of_nil in H|].
      exists f. split; [now apply Hmem | exact He].
    - intros (f & H & He). right. exists f. split; [now apply Hmem | exact He]. }
  destruct (files w !! id) as [f|] eqn:Ef.
  - destruct (expired now f) eqn:E.
    + apply delete_all_in, Hids. now exists f.
    + rewrite delete_all_notin; [exact Ef|].
      intros Hin. apply Hids in Hin as (f' & Hf' & He). congruence.
  - rewrite delete_all_notin; [exact Ef|].
    intros Hin. apply Hids in Hin as (f' & Hf' & He). congruence.
Qed.

End StorageFacts.

Section StorageLifecycle.

Import Storage.

(** C8. A sweep, in whatever order it walks the map, removes every expired
    record from the map and no other record, whether or not the file could
    be deleted.  With a logger in place, the entries of the sweep are
    appended to the log; a record whose file is there but cannot be removed
    gets an error entry (and is removed from the map like the rest); error
    entries are written for such records only, so a file that is already
    absent is not reported as an error. *)
Theorem sweep_removes_expired_regardless order now w :
  order ≡ₚ map_to_list (files w) ->
  let w' := cleanupExpiredFiles_in order now w in
  (forall id f, files w !! id = Some f -> expired now f = true ->
     files w' !! id = None) /\
  (forall id f, files w !! id = Some f -> expired now f = false ->
     files w' !! id = Some f) /\
  (forall l, logger w = Some l ->
     exists new, logger w' = Some (l ++ new) /\
       (forall id f, files w !! id = Some f -> expired now f = true ->
          disk w !! FilePath f = Some Protected ->
          remove_failed id (FilePath f) EACCES ∈ new) /\
       (forall ent, ent ∈ new -> lvl ent = ErrorLevel ->
          exists id f, files w !! id = Some f /\ expired now f = true /\
            disk w !! FilePath f = Some Protected /\
            ent = remove_failed id (FilePath f) EACCES) /\
       (forall id f e, files w !! id = Some f -> disk w !! FilePath f = None ->
          remove_failed id (FilePath f) e ∉ new)).
Proof.
  intros Hperm w'. subst w'.
  assert (Hmem : forall id f, (id, f) ∈ order <-> files w !! id = Some f).
  { intros id f. rewrite Hperm. apply elem_of_map_to_list. }
  split; [|split].
  - intros id f Hf He. rewrite cleanup_files by exact Hperm. now rewrite Hf, He.
  - intros id f Hf He. rewrite cleanup_files by exact Hperm. now rewrite Hf, He.
  - intros l Hl.
    destruct (sweep_log now order (sweep_init w)) as (new & Hlog & Hin & Hout).
    simpl in Hlog, Hin, Hout. rewrite Hl in Hlog. simpl in Hlog.
    assert (Herr : forall ent, ent ∈ new -> lvl ent = ErrorLevel ->
              exists id f, files w !! id = Some f /\ expired now f = true /\
                disk w !! FilePath f = Some Protected /\
                ent = remove_failed id (FilePath f) EACCES).
    { intros ent Hent Hlvl.
      destruct (Hout ent Hent Hlvl) as (id & f & H1 & H2 & H3 & H4).
      exists id, f. repeat split; [now apply Hmem | exact H2 | exact H3 | exact H4]. }
    assert (Habs : forall tail, (forall x, x ∈ tail -> lvl x <> ErrorLevel) ->
              forall id f e, files w !! id = Some f -> disk w !! FilePath f = None ->
              remove_failed id (FilePath f) e ∉ new ++ tail).
    { intros tail Htail id f e Hf Hd Hx. apply elem_of_app in Hx as [Hx|Hx].
      - destruct (Herr _ Hx eq_refl) as (id' & f' & _ & _ & Hp & Heq).
        injection Heq as _ Hpath _. rewrite <- Hpath, Hd in Hp. discriminate.
      - now apply (Htail _ Hx). }
    unfold cleanupExpiredFiles_in, sweep_all. cbn [logger].
    destruct (_ || _).
    + eexists (new ++ [_]).
      split; [|split; [|split]].
      * unfold zap. rewrite Hlog. simpl. rewrite <- app_assoc. reflexivity.
      * intros id f Hf He Hp. apply elem_of_app. left.
        apply (Hin id f); [now apply Hmem | exact He | exact Hp].
      * intros ent Hent Hlvl. apply elem_of_app in Hent as [Hent|Hent].
        -- now apply Herr.
        -- apply list_elem_of_singleton in Hent. subst ent. discriminate.
      * apply Habs. intros x Hx. apply list_elem_of_singleton in Hx.
        subst x. discriminate.
    + exists new. split; [exact Hlog | split; [|split]].
      * intros id f Hf He Hp.
        apply (Hin id f); [now apply Hmem | exact He | exact Hp].
      * exact Herr.
      * intros id f e Hf Hd Hx.
        assert (Hnil : forall x : log_entry, x ∈ [] -> lvl x <> ErrorLevel)
          by (intros x Hx'; now apply elem_of_nil in Hx').
        apply (Habs [] Hnil id f e Hf Hd). now rewrite app_nil_r.
Qed.

Lemma sweep_removes_expired_regardless_witness :
  let w' := cleanupExpiredFiles (noon + 2 * Minute) sample_world in
  files w' !! "a" = None /\ files w' !! "b" = None /\ files w' !! "c" = None /\
  files w' !! "d" = Some (sample_file "d" (noon + 5 * Minute)).
Proof.
  intros w'.
  destruct (sweep_removes_expired_regardless
              (map_to_list (files sample_world)) (noon + 2 * Minute) sample_world)
    as (Hgone & Hkept & _).
  - reflexivity.
  - split; [|split; [|split]].
    + now apply (Hgone "a"%string (sample_file "a" noon)).
    + now apply (Hgone "b"%string (sample_file "b" noon)).
    + now apply (Hgone "c"%string (sample_file "c" noon)).
    + now apply (Hkept "d"%string (sample_file "d" (noon + 5 * Minute))).
Defined.

Lemma cleanup_lookup now w id :
  files (cleanupExpiredFiles now w) !! id =
    match files w !! id with
    | Some f => if expired now f then None else Some f
    | None => None
    end.
Proof. unfold cleanupExpiredFiles. now apply cleanup_files. Qed.

Lemma run_sweeps_keeps ts : forall w id f,
  files w !! id = Some f ->
  Forall (fun u => u <= ExpiresAt f) ts ->
  files (run_sweeps ts w) !! id = Some f.
Proof.
  induction ts as [|t ts IH]; intros w id f Hf Hall; [exact Hf|].
  inversion Hall as [|? ? Ht Hts]; subst.
  unfold run_sweeps in *. simpl. apply IH; [|exact Hts].
  rewrite cleanup_lookup, Hf. unfold expired.
  apply After_false in Ht. now rewrite Ht.
Qed.

(** C3 (as the code has it). With a TTL of [T] seconds, [T] seconds being
    an [int64] number of nanoseconds: [SaveFile id] at [t0] stores the
    record with expiry [t0 + T]; [GetFile id] returns it at any later time
    as long as every sweep so far ran at or before [t0 + T]; after a sweep
    run strictly later than [t0 + T], [GetFile id] finds nothing. *)
Theorem registered_until_swept cfg t0 id file w ts t :
  in_int64 (FileTTLSeconds cfg * Second) ->
  Forall (fun u => u <= t0 + FileTTLSeconds cfg * Second) ts ->
  t0 + FileTTLSeconds cfg * Second < t ->
  let record := {| ID := id; Filename := Filename file; FilePath := FilePath file;
                   Size := Size file; CreatedAt := t0;
                   ExpiresAt := t0 + FileTTLSeconds cfg * Second;
                   URL := URL file |} in
  let w1 := run_sweeps ts (SaveFile cfg t0 id file w) in
  GetFile id (SaveFile cfg t0 id file w) = Some record /\
  GetFile id w1 = Some record /\
  GetFile id (cleanupExpiredFiles t w1) = None.
Proof.
  intros Hrange Hall Hlate record w1.
  assert (Hsaved : files (SaveFile cfg t0 id file w) !! id = Some record).
  { unfold SaveFile, ttl, mul64, Add. simpl. rewrite lookup_insert_eq.
    now rewrite (wrap64_id _ Hrange). }
  assert (Hkept : files w1 !! id = Some record)
    by (apply run_sweeps_keeps; [exact Hsaved | exact Hall]).
  unfold GetFile. split; [exact Hsaved | split; [exact Hkept|]].
  rewrite cleanup_lookup, Hkept. unfold expired. simpl.
  apply After_true in Hlate. now rewrite Hlate.
Qed.

Lemma registered_until_swept_witness :
  let file := sample_file "clip.mp4" 0 in
  let w0 := SaveFile cfg_ttl60 noon "f1" file empty_world in
  let w1 := run_sweeps [noon + 30 * Second; noon + 59 * Second] w0 in
  is_Some (GetFile "f1" w1) /\
  GetFile "f1" (cleanupExpiredFiles (noon + 61 * Second) w1) = None.
Proof.
  intros file w0 w1.
  destruct (registered_until_swept cfg_ttl60 noon "f1" file empty_world
              [noon + 30 * Second; noon + 59 * Second] (noon + 61 * Second))
    as (_ & H2 & H3).
  - vm_compute; split; [discriminate | reflexivity].
  - repeat constructor; vm_compute; discriminate.
  - vm_compute; reflexivity.
  - split; [unfold w1, w0; rewrite H2; eexists; reflexivity | exact H3].
Defined.

(** C3, the boundary as specified fails: a sweep run exactly at [t0 + T] (here
    60 seconds after the save) does not remove the record; the lookup
    after it still succeeds. *)
Lemma sweep_at_expiry_instant_keeps_record :
  let file := sample_file "clip.mp4" 0 in
  let w0 := SaveFile cfg_ttl60 noon "f1" file empty_world in
  let t := noon + FileTTLSeconds cfg_ttl60 * Second in
  noon + FileTTLSeconds cfg_ttl60 * Second <= t /\
  GetFile "f1" (cleanupExpiredFiles t w0) =
    Some {| ID := "f1"; Filename := "clip.mp4"; FilePath := "downloads/clip.mp4";
            Size := 1048576; CreatedAt := noon; ExpiresAt := noon + 60 * Second;
            URL := "https://youtu.be/x" |} /\
  GetFile "f1" (cleanupExpiredFiles t w0) <> None.
Proof.
  vm_compute. split; [discriminate | split; [reflexivity | discriminate]].
Qed.

(** *** The stop signal *)

Lemma sweep_store_irrelevant_log now order : forall s1 s2,
  sw_disk s1 = sw_disk s2 ->
  deletedIds s1 = deletedIds s2 ->
  sw_disk (fold_left (sweep_one now) order s1) =
    sw_disk (fold_left (sweep_one now) order s2) /\
  deletedIds (fold_left (sweep_one now) order s1) =
    deletedIds (fold_left (sweep_one now) order s2).
Proof.
  induction order as [|[i f] order IH]; intros s1 s2 Hd Hi; cbn [fold_left];
    [now split|].
  apply IH; destruct (expired now f) eqn:E.
  - now rewrite !sweep_one_disk, Hd by exact E.
  - now rewrite !sweep_one_live by exact E.
  - now rewrite !sweep_one_ids, Hi by exact E.
  - now rewrite !sweep_one_live by exact E.
Qed.

Lemma cleanup_same_store now w1 w2 :
  files w1 = files w2 -> disk w1 = disk w2 ->
  files (cleanupExpiredFiles now w1) = files (cleanupExpiredFiles now w2) /\
  disk (cleanupExpiredFiles now w1) = disk (cleanupExpiredFiles now w2).
Proof.
  intros Hf Hd. unfold cleanupExpiredFiles, cleanupExpiredFiles_in, sweep_all.
  cbn [files disk]. rewrite Hf.
  destruct (sweep_store_irrelevant_log now (map_to_list (files w2))
              (sweep_init w1) (sweep_init w2)) as [H1 H2];
    [exact Hd | reflexivity |].
  now rewrite H1, H2.
Qed.

Lemma step_same_store cfg s1 s2 ev :
  same_store s1 s2 -> same_store (step cfg s1 ev) (step cfg s2 ev).
Proof.
  intros (Hpc & Hf & Hd). unfold same_store, step. rewrite Hpc.
  destruct ev as [| |t|t id file]; destruct (pc s2) eqn:E;
    cbn [pc world files disk]; try (repeat split; congruence);
    try (unfold SaveFile; cbn [files disk]; now rewrite Hf).
  destruct (cleanup_same_store t _ _ Hf Hd) as [H1 H2]. now repeat split.
Qed.

Lemma run_same_store cfg evs : forall s1 s2,
  same_store s1 s2 -> same_store (run cfg evs s1) (run cfg evs s2).
Proof.
  induction evs as [|ev evs IH]; intros s1 s2 H; [exact H|].
  unfold run in *. simpl. now apply IH, step_same_store.
Qed.

Lemma step_not_returned cfg sys ev :
  pc sys <> Returned -> pc (step cfg sys ev) <> Returned.
Proof.
  intros H. unfold step.
  destruct ev, (pc sys) eqn:E; cbn [pc]; try rewrite E; congruence.
Qed.

Lemma run_not_returned cfg evs : forall sys,
  pc sys <> Returned -> pc (run cfg evs sys) <> Returned.
Proof.
  induction evs as [|ev evs IH]; intros sys H; [exact H|].
  unfold run in *. simpl. now apply IH, step_not_returned.
Qed.

(** C9. [Stop] called while the cleanup routine is not parked at its
    [select] (not yet there, or busy in a sweep) takes the [default] case:
    the signal is not delivered and nothing is kept of it.  Whatever
    happens afterwards (ticks, sweeps, saves), the routine runs exactly as
    if [Stop] had not been called, and it never returns. *)
Theorem stop_signal_can_be_dropped cfg sys evs :
  pc sys = NotStarted \/ pc sys = Cleaning ->
  snd (Stop sys) = Dropped /\
  same_store (fst (Stop sys)) sys /\
  same_store (run cfg evs (fst (Stop sys))) (run cfg evs sys) /\
  pc (run cfg evs (fst (Stop sys))) <> Returned.
Proof.
  intros Hpc.
  assert (Hstop : snd (Stop sys) = Dropped /\ same_store (fst (Stop sys)) sys).
  { unfold Stop, same_store. destruct Hpc as [-> | ->]; now cbn. }
  destruct Hstop as [Hdrop Hsame].
  split; [exact Hdrop | split; [exact Hsame | split]].
  - now apply run_same_store.
  - apply run_not_returned. destruct Hsame as [-> _].
    destruct Hpc as [-> | ->]; discriminate.
Qed.

Lemma stop_signal_can_be_dropped_witness :
  let sys := {| world := sample_world; pc := Cleaning |} in
  let evs := [EvCleaned (noon + 2 * Minute); EvTick;
              EvCleaned (noon + 3 * Minute); EvTick] in
  snd (Stop sys) = Dropped /\
  pc (run cfg_ttl60 evs (fst (Stop sys))) = Cleaning.
Proof.
  intros sys evs.
  destruct (stop_signal_can_be_dropped cfg_ttl60 sys evs) as (H1 & _ & H3 & _).
  - right; reflexivity.
  - split; [exact H1|]. destruct H3 as [-> _]. reflexivity.
Defined.

End StorageLifecycle.

(** ** URL allow-list *)

Section ValidatorFacts.

Import Validator.

Local Open Scope string_scope.

Local Arguments String.append !_ _ / : simpl nomatch.

Lemma HasPrefix_app d : forall rest, HasPrefix (d ++ rest) d = true.
Proof.
  induction d as [|c d IH]; intros rest; simpl; [reflexivity|].
  now rewrite Ascii.eqb_refl.
Qed.

Lemma HasPrefix_split p : forall s,
  HasPrefix s p = true -> s = p ++ slice_from (String.length p) s.
Proof.
  induction p as [|c p IH]; intros s H; simpl in *; [reflexivity|].
  destruct s as [|d s]; [discriminate|].
  destruct (Ascii.eqb_spec c d) as [->|]; [|discriminate].
  simpl. f_equal. now apply IH.
Qed.

Lemma Contains_unfold s d :
  Contains s d =
    (HasPrefix s d || match s with
                      | EmptyString => false
                      | String _ s' => Contains s' d
                      end)%bool.
Proof. now destruct s. Qed.

Lemma Contains_intro d before : forall after,
  Contains (before ++ d ++ after) d = true.
Proof.
  induction before as [|c before IH]; intros after.
  - simpl. rewrite Contains_unfold, HasPrefix_app. reflexivity.
  - simpl. rewrite IH. apply orb_true_r.
Qed.

Lemma lower_idem c : lower (lower c) = lower c.
Proof.
  destruct c as [[] [] [] [] [] [] [] []]; reflexivity.
Qed.

Lemma ToLower_idem s : ToLower (ToLower s) = ToLower s.
Proof.
  induction s as [|c s IH]; simpl; [reflexivity|].
  now rewrite lower_idem, IH.
Qed.

Lemma ToLower_app a : forall b, ToLower (a ++ b) = ToLower a ++ ToLower b.
Proof.
  induction a as [|c a IH]; intros b; simpl; [reflexivity|].
  now rewrite IH.
Qed.

Lemma ToLower_slice n : forall s,
  ToLower (slice_from n s) = slice_from n (ToLower s).
Proof.
  induction n as [|n IH]; intros s; [reflexivity|].
  destruct s as [|c s]; simpl; [reflexivity | apply IH].
Qed.

Lemma ToLower_fixed_app a : forall b,
  ToLower (a ++ b) = a ++ b -> ToLower a = a /\ ToLower b = b.
Proof.
  induction a as [|c a IH]; intros b H; simpl in *; [now split|].
  injection H as Hc Hrest. destruct (IH b Hrest) as [Ha Hb].
  split; [now rewrite Hc, Ha | exact Hb].
Qed.

(** A piece of a lowercased string is itself lowercase. *)
Lemma substring_of_lower_fixed d s :
  substring_of d (ToLower s) -> ToLower d = d.
Proof.
  intros (before & after & H).
  assert (Hfix : ToLower (before ++ d ++ after) = before ++ d ++ after)
    by (rewrite <- H; apply ToLower_idem).
  apply ToLower_fixed_app in Hfix as [_ Hfix].
  now apply ToLower_fixed_app in Hfix as [Hfix _].
Qed.

Lemma HasPrefix_www_lower s :
  HasPrefix s "www." = true -> HasPrefix (ToLower s) "www." = true.
Proof.
  intros H. apply (HasPrefix_split "www.") in H. rewrite H.
  rewrite ToLower_app. apply (HasPrefix_app "www.").
Qed.

(** Stripping after lowercasing leaves a piece of what the code computes. *)
Lemma lowered_stripped_in_normalised d host :
  substring_of d (lowered_stripped host) -> substring_of d (normalise_host host).
Proof.
  unfold lowered_stripped, normalise_host.
  destruct (HasPrefix host "www.") eqn:E.
  - rewrite (HasPrefix_www_lower _ E). now rewrite ToLower_slice.
  - destruct (HasPrefix (ToLower host) "www.") eqn:E'; [|auto].
    intros (before & after & H).
    exists ("www." ++ before), after.
    rewrite (HasPrefix_split "www." _ E') at 1.
    change (String.length "www.") with 4%nat. rewrite H. reflexivity.
Qed.

Lemma length_nonempty s : s <> "" -> Nat.eqb (String.length s) 0 = false.
Proof. destruct s; [congruence | reflexivity]. Qed.

Variable url_Parse : string -> option string.

Lemma match_domains_intro host domain allowedDomains :
  domain ∈ allowedDomains ->
  ToLower (TrimSpace domain) <> "" ->
  Contains host (ToLower (TrimSpace domain)) = true ->
  match_domains host allowedDomains = true.
Proof.
  intros Hin Hne Hc.
  induction allowedDomains as [|a rest IH]; [now apply elem_of_nil in Hin|].
  simpl. apply elem_of_cons in Hin as [<-|Hin].
  - rewrite (length_nonempty _ Hne), Hc. now rewrite !orb_true_r.
  - rewrite (IH Hin). destruct (Nat.eqb _ 0); [reflexivity|].
    now destruct (orb _ _).
Qed.

(** C10. For an ASCII host and ASCII allowed domains: if parsing succeeds
    and the host, with a leading ["www."] dropped and lowercased (in either
    order), contains some allowed domain, trimmed and not empty, anywhere
    inside it, then [ValidateURL] accepts the URL.  Neither equality nor a
    match at a dot boundary is needed. *)
Theorem substring_match_is_accepted videoURL host allowedDomains domain :
  url_Parse videoURL = Some host ->
  is_ascii host = true ->
  Forall (fun d => is_ascii d = true) allowedDomains ->
  domain ∈ allowedDomains ->
  TrimSpace domain <> "" ->
  substring_of (TrimSpace domain) (normalise_host host) \/
    substring_of (TrimSpace domain) (lowered_stripped host) ->
  ValidateURL url_Parse videoURL allowedDomains = true.
Proof.
  intros Hparse _ _ Hin Hne Hsub.
  assert (Hsub' : substring_of (TrimSpace domain) (normalise_host host))
    by (destruct Hsub; [assumption | now apply lowered_stripped_in_normalised]).
  assert (Hfix : ToLower (TrimSpace domain) = TrimSpace domain)
    by (apply (substring_of_lower_fixed _ _ Hsub')).
  unfold ValidateURL. rewrite Hparse.
  apply (match_domains_intro _ domain); [exact Hin | now rewrite Hfix |].
  rewrite Hfix. destruct Hsub' as (before & after & ->). apply Contains_intro.
Qed.

End ValidatorFacts.

Section ValidatorScenario.

Import Validator.

Local Open Scope string_scope.

Lemma substring_match_is_accepted_witness :
  let parse := fun _ : string => Some "www.notyoutube.com.attacker.example" in
  let host := normalise_host "www.notyoutube.com.attacker.example" in
  String.eqb host "youtube.com" = false /\
  HasSuffix host ".youtube.com" = false /\
  ValidateURL parse "https://www.notyoutube.com.attacker.example/watch?v=1"
    ["vimeo.com"; " youtube.com "] = true.
Proof.
  intros parse host.
  split; [reflexivity | split; [reflexivity|]].
  apply (substring_match_is_accepted parse _
           "www.notyoutube.com.attacker.example" _ " youtube.com ").
  - reflexivity.
  - reflexivity.
  - repeat constructor.
  - apply elem_of_cons. right. apply elem_of_cons. now left.
  - discriminate.
  - left. exists "not", ".attacker.example". reflexivity.
Defined.

End ValidatorScenario.

(** ** The operations run on concrete inputs *)

Section Runs.

Example add64_wraps : add64 (2 ^ 63 - 1) 1 = - 2 ^ 63.
Proof. reflexivity. Qed.

Example reset_time_from_noon :
  Quota.calculateResetTime Quota.cfg_100M noon = next_midnight.
Proof. reflexivity. Qed.

Example quota_disabled_always_allows :
  Quota.CheckQuota
    {| Quota.Enabled := false; Quota.DailyLimitMB := 10;
       Quota.ResetHour := 0; Quota.ResetMinute := 0 |}
    noon ∅ "203.0.113.9" 500 = (∅, (true, 10)).
Proof. reflexivity. Qed.

Example quota_exhausted_answers_zero :
  snd (Quota.CheckQuota Quota.cfg_100M (noon + Second)
         (Quota.AddUsage Quota.cfg_100M noon ∅ "203.0.113.9" 120000000)
         "203.0.113.9" 1) = (false, 0).
Proof. vm_compute. reflexivity. Qed.

Example sixth_request_is_refused :
  snd (RateLimit.run_calls RateLimit.cfg_5_2
         (RateLimit.calls_at RateLimit.Plain "198.51.100.4"
            [noon; noon; noon; noon; noon; noon; noon]) ∅) =
    [true; true; true; true; true; false; false].
Proof. vm_compute. reflexivity. Qed.

Example sample_sweep_levels :
  (fun entries => map Storage.lvl entries) <$>
    Storage.logger (Storage.cleanupExpiredFiles (noon + 2 * Minute) Storage.sample_world) =
  Some [Storage.DebugLevel; Storage.InfoLevel; Storage.ErrorLevel; Storage.InfoLevel].
Proof. vm_compute. reflexivity. Qed.

Example sample_sweep_disk :
  map_to_list
    (Storage.disk (Storage.cleanupExpiredFiles (noon + 2 * Minute) Storage.sample_world)) =
  [("downloads/b"%string, Storage.Protected); ("downloads/d"%string, Storage.Regular)].
Proof. vm_compute. reflexivity. Qed.

Example stop_while_parked_is_delivered :
  snd (Storage.Stop {| Storage.world := Storage.empty_world;
                       Storage.pc := Storage.Selecting |}) = Storage.Delivered.
Proof. reflexivity. Qed.

Example trimmed_lowered_domain :
  Validator.ToLower (Validator.TrimSpace "  YouTube.COM ") = "youtube.com"%string.
Proof. reflexivity. Qed.

Example unrelated_host_is_rejected :
  Validator.ValidateURL (fun _ => Some "example.org"%string)
    "https://example.org/v" ["youtube.com"; "  "; "vimeo.com"]%string = false.
Proof. reflexivity. Qed.

End Runs.

(** * Further properties of the services *)

(** ** Quota tracker: resets, sweeps and keys *)

Section QuotaResets.

Import Quota.

Variable cfg : QuotaConfig.
Hypothesis enabled : Enabled cfg = true.

Lemma CheckQuota_shape now quotas ip r :
  let entry := reset_if_due cfg now (default (fresh_entry cfg now ip) (quotas !! ip)) in
  CheckQuota cfg now quotas ip r =
    (<[ip := entry]> quotas, headroom (sub64 (DailyLimitMB cfg) (UsedMB entry)) 0 r).
Proof.
  unfold CheckQuota, headroom, reset_if_due, fresh_entry. rewrite enabled. simpl.
  destruct (quotas !! ip) as [e|]; simpl;
    destruct (After now _); simpl; rewrite Z.sub_0_r;
    (destruct (_ <=? 0); [|destruct (_ <? r)]); reflexivity.
Qed.

Lemma checkAndResetQuotas_fmap now quotas :
  checkAndResetQuotas cfg now quotas = reset_if_due cfg now <$> quotas.
Proof. reflexivity. Qed.

Lemma reset_if_due_idem now e :
  reset_if_due cfg now (reset_if_due cfg now e) = reset_if_due cfg now e.
Proof.
  unfold reset_if_due. destruct (After now (ResetTime e)) eqn:E; simpl.
  - now destruct (After now (calculateResetTime cfg now)).
  - now rewrite E.
Qed.

Lemma reset_if_due_used now e :
  UsedMB (reset_if_due cfg now e) = if After now (ResetTime e) then 0 else UsedMB e.
Proof. unfold reset_if_due. now destruct (After now (ResetTime e)). Qed.

(** X1. The lazy reset of [CheckQuota] and the reset of the periodic sweep
    commute: checking a key after a sweep, or sweeping after the check,
    gives the same map, and the check gives the same answer whether or not
    the sweep ran first. *)
Theorem lazy_and_eager_reset_agree now quotas ip r :
  fst (CheckQuota cfg now (checkAndResetQuotas cfg now quotas) ip r) =
    checkAndResetQuotas cfg now (fst (CheckQuota cfg now quotas ip r)) /\
  snd (CheckQuota cfg now (checkAndResetQuotas cfg now quotas) ip r) =
    snd (CheckQuota cfg now quotas ip r).
Proof.
  rewrite !CheckQuota_shape, !checkAndResetQuotas_fmap. cbn [fst snd].
  rewrite fmap_insert, lookup_fmap.
  assert (H : reset_if_due cfg now
                (default (fresh_entry cfg now ip) (reset_if_due cfg now <$> quotas !! ip)) =
              reset_if_due cfg now
                (default (fresh_entry cfg now ip) (quotas !! ip))).
  { destruct (quotas !! ip) as [e|]; simpl; [apply reset_if_due_idem | reflexivity]. }
  rewrite H, reset_if_due_idem. split; reflexivity.
Qed.

(** X2. Running the sweep twice at the same instant is the same as running it
    once. *)
Theorem quota_sweep_idempotent now quotas :
  checkAndResetQuotas cfg now (checkAndResetQuotas cfg now quotas) =
    checkAndResetQuotas cfg now quotas.
Proof.
  rewrite !checkAndResetQuotas_fmap, <- map_fmap_compose.
  apply map_fmap_ext. intros i e _. apply reset_if_due_idem.
Qed.

(** X3. [AddUsage] never resets a window.  A commit made after the reset time
    of the record has passed is added to the old usage, and the next check
    discards it with the rest: the check answers exactly as if the commit
    had not been made, and the stored usage is 0 afterwards. *)
Theorem commit_after_reset_instant_is_dropped t now quotas ip sz r e :
  quotas !! ip = Some e ->
  ResetTime e < now ->
  AddUsage cfg t quotas ip sz !! ip =
    Some {| IP := IP e; UsedMB := add64 (UsedMB e) sz;
            ResetTime := ResetTime e; LastUpdate := t |} /\
  snd (CheckQuota cfg now (AddUsage cfg t quotas ip sz) ip r) =
    snd (CheckQuota cfg now quotas ip r) /\
  usage (fst (CheckQuota cfg now (AddUsage cfg t quotas ip sz) ip r)) ip = 0.
Proof.
  intros He Hdue.
  pose proof (AddUsage_existing cfg enabled t quotas ip sz e He) as Hadd.
  split; [exact Hadd|].
  rewrite !CheckQuota_shape. cbn [fst snd]. unfold usage.
  rewrite lookup_insert_eq, Hadd, He. simpl.
  rewrite !reset_if_due_used. simpl.
  apply After_true in Hdue. rewrite Hdue. split; reflexivity.
Qed.

(** X4. Operations on one key leave the record of every other key as it is. *)
Theorem quota_keys_are_independent ip ip' ops quotas :
  ip' <> ip ->
  run_ops cfg ip' ops quotas !! ip = quotas !! ip.
Proof.
  intros Hne. revert quotas.
  induction ops as [|o ops IH]; intros quotas; [reflexivity|].
  unfold run_ops in *. simpl. rewrite IH.
  destruct o as [t sz | t r]; simpl.
  - unfold AddUsage. rewrite enabled. simpl.
    destruct (quotas !! ip'); now rewrite lookup_insert_ne.
  - rewrite CheckQuota_shape. simpl. now rewrite lookup_insert_ne.
Qed.

(** X5. For a record inside its window the remaining quota that
    [GetQuotaInfo] reports is the one [CheckQuota] returns, whatever size is
    asked for: both give [limit - used], held at 0 from below. *)
Theorem status_and_check_agree_in_window now quotas ip r e :
  quotas !! ip = Some e ->
  now <= ResetTime e ->
  GetQuotaInfo cfg now quotas ip =
    InfoEnabled (UsedMB e) (DailyLimitMB cfg)
      (snd (snd (CheckQuota cfg now quotas ip r))) (ResetTime e).
Proof.
  intros He Hwin. unfold GetQuotaInfo. rewrite enabled, He. simpl.
  rewrite CheckQuota_shape. cbn [snd]. rewrite He. simpl.
  unfold reset_if_due. apply After_false in Hwin. rewrite Hwin.
  unfold headroom. rewrite Z.sub_0_r.
  destruct (Z.leb_spec (sub64 (DailyLimitMB cfg) (UsedMB e)) 0) as [Hle|Hgt];
    destruct (Z.ltb_spec (sub64 (DailyLimitMB cfg) (UsedMB e)) 0) as [Hlt|Hge];
    simpl; try lia.
  - reflexivity.
  - f_equal. lia.
  - now destruct (_ <? r).
Qed.

End QuotaResets.

Section QuotaResetRuns.

Import Quota.

Lemma lazy_and_eager_reset_agree_witness :
  let quotas := AddUsage cfg_100M before_midnight ∅ "203.0.113.9" 500 in
  snd (CheckQuota cfg_100M after_midnight
         (checkAndResetQuotas cfg_100M after_midnight quotas) "203.0.113.9" 10) =
    (true, 100000000).
Proof.
  intros quotas.
  destruct (lazy_and_eager_reset_agree cfg_100M eq_refl after_midnight quotas
              "203.0.113.9" 10) as [_ ->].
  vm_compute. reflexivity.
Defined.

Lemma commit_after_reset_instant_is_dropped_witness :
  let quotas := AddUsage cfg_100M before_midnight ∅ "203.0.113.9" 500 in
  snd (CheckQuota cfg_100M (after_midnight + Minute)
         (AddUsage cfg_100M after_midnight quotas "203.0.113.9" 700)
         "203.0.113.9" 10) = (true, 100000000).
Proof.
  intros quotas.
  destruct (commit_after_reset_instant_is_dropped cfg_100M eq_refl after_midnight
              (after_midnight + Minute) quotas "203.0.113.9" 700 10
              {| IP := "203.0.113.9"; UsedMB := 500; ResetTime := next_midnight;
                 LastUpdate := before_midnight |}) as (_ & -> & _).
  - vm_compute. reflexivity.
  - vm_compute. reflexivity.
  - vm_compute. reflexivity.
Defined.

Lemma quota_keys_are_independent_witness :
  let quotas := AddUsage cfg_100M noon ∅ "203.0.113.9" 500 in
  usage (run_ops cfg_100M "198.51.100.4"
           [Commit noon 900; Check (noon + Second) 5] quotas) "203.0.113.9" = 500.
Proof.
  intros quotas. unfold usage.
  rewrite (quota_keys_are_independent cfg_100M eq_refl).
  - vm_compute. reflexivity.
  - discriminate.
Defined.

Lemma status_and_check_agree_in_window_witness :
  let quotas := AddUsage cfg_100M noon ∅ "203.0.113.9" 100000700 in
  GetQuotaInfo cfg_100M (noon + Second) quotas "203.0.113.9" =
    InfoEnabled 100000700 100000000 0 next_midnight.
Proof.
  intros quotas.
  rewrite (status_and_check_agree_in_window cfg_100M eq_refl (noon + Second) quotas
             "203.0.113.9" 25
             {| IP := "203.0.113.9"; UsedMB := 100000700; ResetTime := next_midnight;
                LastUpdate := noon |}).
  - vm_compute. reflexivity.
  - vm_compute. reflexivity.
  - vm_compute. discriminate.
Defined.

End QuotaResetRuns.

(** ** The download handler: what is charged, and when a request is let in *)

Section HandlerQuota.

Import Quota Handler.

(** X6. For a positive size the charge is the number of whole mebibytes, plus
    one exactly when the size is not a multiple of 1024 bytes.  So a size
    that is not a multiple of 1024 is rounded up to the next mebibyte, and
    a size that is a multiple of 1024 is rounded down, also when it is not
    a whole number of mebibytes. *)
Theorem charged_megabytes bytes :
  0 < bytes < 2 ^ 63 ->
  fileSizeMB bytes = bytes / 1048576 + (if bytes mod 1024 =? 0 then 0 else 1) /\
  (bytes mod 1024 <> 0 -> fileSizeMB bytes = (bytes + 1048575) / 1048576) /\
  (bytes mod 1024 = 0 -> fileSizeMB bytes = bytes / 1048576).
Proof.
  intros Hb.
  assert (Hmain : fileSizeMB bytes =
                    bytes / 1048576 + (if bytes mod 1024 =? 0 then 0 else 1)).
  { unfold fileSizeMB, mul64, add64. change (1024 * 1024) with 1048576.
    rewrite Z.quot_div_nonneg, Z.rem_mod_nonneg by lia.
    assert (H1 : 0 <= bytes mod 1024 < 1024) by (apply Z.mod_pos_bound; lia).
    assert (H2 : 0 <= bytes / 1048576 < 2 ^ 43).
    { split; [apply Z.div_pos; lia|]. apply Z.div_lt_upper_bound; lia. }
    rewrite (wrap64_id (bytes / 1048576)) by (unfold in_int64; lia).
    rewrite (wrap64_id (bytes mod 1024)) by (unfold in_int64; lia).
    rewrite (wrap64_id (bytes mod 1024 * 1024)) by (unfold in_int64; lia).
    destruct (Z.eqb_spec (bytes mod 1024) 0) as [E|E].
    - rewrite E. simpl. lia.
    - destruct (Z.ltb_spec 0 (bytes mod 1024 * 1024)); [|lia].
      apply wrap64_id. unfold in_int64. lia. }
  split; [exact Hmain | split].
  - intros Hne. rewrite Hmain.
    destruct (Z.eqb_spec (bytes mod 1024) 0) as [E|_]; [contradiction|].
    revert Hne. Z.div_mod_to_equations. lia.
  - intros Heq. rewrite Hmain, Heq. simpl. lia.
Qed.

Lemma charged_megabytes_witness :
  fileSizeMB 1048577 = 2 /\ fileSizeMB (1048576 + 1024) = 1 /\ fileSizeMB 2048 = 0.
Proof.
  split; [|split].
  - rewrite (proj1 (charged_megabytes 1048577 ltac:(lia))). reflexivity.
  - rewrite (proj1 (charged_megabytes (1048576 + 1024) ltac:(lia))). reflexivity.
  - rewrite (proj1 (charged_megabytes 2048 ltac:(lia))). reflexivity.
Defined.

Variable cfg : QuotaConfig.
Hypothesis enabled : Enabled cfg = true.

Lemma quotaGate_in_window now quotas ip e :
  quotas !! ip = Some e ->
  now <= ResetTime e ->
  in_int64 (DailyLimitMB cfg - UsedMB e) ->
  quotaGate cfg now quotas ip = (<[ip := e]> quotas, 0 <? DailyLimitMB cfg - UsedMB e).
Proof.
  intros He Hwin Hrange. unfold quotaGate. rewrite enabled.
  rewrite (CheckQuota_shape cfg enabled). rewrite He. simpl.
  unfold reset_if_due. apply After_false in Hwin. rewrite Hwin.
  unfold headroom, sub64. rewrite (wrap64_id _ Hrange), Z.sub_0_r.
  destruct (Z.leb_spec (DailyLimitMB cfg - UsedMB e) 0) as [Hle|Hgt]; simpl.
  - destruct (Z.ltb_spec 0 (DailyLimitMB cfg - UsedMB e)); [lia | reflexivity].
  - destruct (Z.ltb_spec (DailyLimitMB cfg - UsedMB e) 0); [lia|]. simpl.
    destruct (Z.ltb_spec 0 (DailyLimitMB cfg - UsedMB e)); [reflexivity | lia].
Qed.

(** X7. The quota test made before a download looks only at whether anything
    is left: with a record inside its window it lets the request in exactly
    when [used < limit], whatever the size of the file.  The whole file is
    charged afterwards, so the usage can pass the limit by one download;
    the next request in the window is then refused. *)
Theorem one_download_can_overshoot now t now' quotas ip e bytes :
  quotas !! ip = Some e ->
  now <= ResetTime e ->
  now' <= ResetTime e ->
  0 < bytes ->
  in_int64 (DailyLimitMB cfg - UsedMB e) ->
  in_int64 (UsedMB e + fileSizeMB bytes) ->
  in_int64 (DailyLimitMB cfg - (UsedMB e + fileSizeMB bytes)) ->
  let gate := quotaGate cfg now quotas ip in
  let charged := chargeQuota cfg t (fst gate) ip (Some bytes) in
  snd gate = (0 <? DailyLimitMB cfg - UsedMB e) /\
  usage charged ip = UsedMB e + fileSizeMB bytes /\
  snd (quotaGate cfg now' charged ip) =
    (0 <? DailyLimitMB cfg - (UsedMB e + fileSizeMB bytes)).
Proof.
  intros He Hwin Hwin' Hb Hr1 Hr2 Hr3 gate charged. subst gate charged.
  rewrite (quotaGate_in_window now quotas ip e He Hwin Hr1). cbn [fst snd].
  split; [reflexivity|].
  unfold chargeQuota. rewrite enabled.
  destruct (Z.ltb_spec 0 bytes) as [_|]; [|lia].
  pose proof (AddUsage_existing cfg enabled t (<[ip := e]> quotas) ip
                (fileSizeMB bytes) e (lookup_insert_eq _ _ _)) as Hadd.
  unfold add64 in Hadd. rewrite (wrap64_id _ Hr2) in Hadd.
  split.
  - unfold usage. now rewrite Hadd.
  - now rewrite (quotaGate_in_window now' _ ip _ Hadd Hwin' Hr3).
Qed.

End HandlerQuota.

Section HandlerQuotaRun.

Import Quota Handler.

Lemma one_download_can_overshoot_witness :
  let ip := "203.0.113.9"%string in
  let quotas := AddUsage cfg_100M noon ∅ ip 99999999 in
  let gate := quotaGate cfg_100M (noon + Second) quotas ip in
  let charged := chargeQuota cfg_100M (noon + Minute) (fst gate) ip (Some 524288001) in
  snd gate = true /\
  usage charged ip = 100000500 /\
  snd (quotaGate cfg_100M (noon + 2 * Minute) charged ip) = false.
Proof.
  intros ip quotas gate charged.
  destruct (one_download_can_overshoot cfg_100M eq_refl (noon + Second) (noon + Minute)
              (noon + 2 * Minute) quotas ip
              {| IP := ip; UsedMB := 99999999; ResetTime := next_midnight;
                 LastUpdate := noon |} 524288001) as (H1 & H2 & H3).
  - vm_compute. reflexivity.
  - vm_compute. discriminate.
  - vm_compute. discriminate.
  - reflexivity.
  - vm_compute. split; [discriminate | reflexivity].
  - vm_compute. split; [discriminate | reflexivity].
  - vm_compute. split; [discriminate | reflexivity].
  - split; [exact H1 | split; [exact H2 | exact H3]].
Defined.

End HandlerQuotaRun.

(** ** Rate limiter: what a client is told, resets, eviction, keys *)

Section RateReads.

Import RateLimit.

Lemma Sub_stale now e : stale now e = true -> ResetAt e + 2 * Hour < now.
Proof.
  unfold stale, Sub. intros H. apply Z.ltb_lt in H.
  assert (HH : 2 * Hour = 7200000000000) by reflexivity.
  rewrite HH in *. lia.
Qed.

Lemma cleanup_lookup_entry now limits ip :
  cleanup now limits !! ip =
    match limits !! ip with
    | Some e => if stale now e then None else Some e
    | None => None
    end.
Proof.
  unfold cleanup. rewrite map_lookup_filter.
  destruct (limits !! ip) as [e|]; simpl; [|reflexivity].
  destruct (stale now e) eqn:E; case_guard; simpl in *; congruence.
Qed.

(** X8. Eviction of old entries cannot be seen by clients.  From the instant
    of the eviction on, [IsAllowed] answers any key as it would have done
    without it, and [GetRemaining] reports the same; a record is only
    evicted once its window has been over for more than two hours, so a
    running window and a standing block are never cut short. *)
Theorem cleanup_is_transparent cfg now t limits ip :
  now <= t ->
  snd (IsAllowed cfg t (cleanup now limits) ip) = snd (IsAllowed cfg t limits ip) /\
  GetRemaining cfg t (cleanup now limits) ip = GetRemaining cfg t limits ip /\
  (forall e, limits !! ip = Some e -> now <= ResetAt e + 2 * Hour ->
     cleanup now limits !! ip = Some e).
Proof.
  intros Ht. unfold IsAllowed, GetRemaining.
  rewrite cleanup_lookup_entry.
  destruct (limits !! ip) as [e|] eqn:He.
  - destruct (stale now e) eqn:Hs.
    + apply Sub_stale in Hs.
      assert (HH : 0 < 2 * Hour) by reflexivity.
      assert (Hafter : After t (ResetAt e) = true) by (apply After_true; lia).
      rewrite Hafter. repeat split; try (now destruct (negb (Enabled cfg))).
      intros e' [= <-] Hkeep. lia.
    + split; [|split; [reflexivity | now intros e' [= <-]]].
      destruct (negb (Enabled cfg)); [reflexivity|].
      destruct (After t (ResetAt e)); [reflexivity|].
      destruct (Blocked e); [reflexivity|].
      now destruct (_ <? _).
  - split; [|split; [reflexivity | discriminate]].
    now destruct (negb (Enabled cfg)).
Qed.

Lemma cleanup_is_transparent_witness :
  let ip := "198.51.100.4"%string in
  let limits := {[ ip := {| IP := ip; Requests := 6; ResetAt := noon + Minute;
                            Blocked := true |} ]} in
  snd (IsAllowed cfg_5_2 (noon + 3 * Hour) (cleanup (noon + 3 * Hour) limits) ip) = true /\
  cleanup (noon + Hour) limits !! ip = limits !! ip.
Proof.
  intros ip limits.
  destruct (cleanup_is_transparent cfg_5_2 (noon + 3 * Hour) (noon + 3 * Hour) limits ip)
    as (H1 & _ & _); [lia|].
  destruct (cleanup_is_transparent cfg_5_2 (noon + Hour) (noon + Hour) limits ip)
    as (_ & _ & H3); [lia|].
  split.
  - rewrite H1. vm_compute. reflexivity.
  - rewrite (H3 _ (lookup_singleton_eq _ _)); [vm_compute; reflexivity|].
    vm_compute. discriminate.
Defined.

(** A call on one key reads and writes the record of that key only. *)
Lemma run_call_local cfg l1 l2 c :
  l1 !! call_ip c = l2 !! call_ip c ->
  snd (run_call cfg l1 c) = snd (run_call cfg l2 c) /\
  fst (run_call cfg l1 c) !! call_ip c = fst (run_call cfg l2 c) !! call_ip c.
Proof.
  intros H. unfold run_call.
  destruct (call_policy c); [|rewrite !AllowBurst_IsAllowed];
    unfold IsAllowed; rewrite H;
    (destruct (negb (Enabled _)); [now split|]);
    (destruct (l2 !! call_ip c) as [e|] eqn:E2; simpl;
      [|now rewrite !lookup_insert_eq]);
    (destruct (After _ _); simpl; [now rewrite !lookup_insert_eq|]);
    (destruct (Blocked e); simpl; [split; congruence|]);
    destruct (_ <? _); simpl; now rewrite !lookup_insert_eq.
Qed.

(** X9. Keys do not interfere: in any run of calls, by either policy, the
    answers given to one key are the answers the calls of that key would
    have received on their own. *)
Theorem keys_do_not_interfere cfg ip cs limits :
  answers_for ip cs (snd (run_calls cfg cs limits)) =
    snd (run_calls cfg (calls_of ip cs) limits).
Proof.
  enough (Hgen : forall l1 l2, l1 !! ip = l2 !! ip ->
            answers_for ip cs (snd (run_calls cfg cs l1)) =
              snd (run_calls cfg (calls_of ip cs) l2))
    by (now apply Hgen).
  induction cs as [|c cs IH]; intros l1 l2 H; [reflexivity|].
  rewrite run_calls_cons. cbn [answers_for calls_of snd].
  destruct (String.eqb_spec (call_ip c) ip) as [Heq|Hne].
  - rewrite run_calls_cons. cbn [snd]. subst ip.
    destruct (run_call_local cfg l1 l2 c H) as [Hb Hl].
    rewrite Hb. f_equal. now apply IH.
  - apply IH. now rewrite run_call_other.
Qed.

Variable cfg : RateLimitConfig.
Hypothesis enabled : Enabled cfg = true.

(** X10. [Reset] puts a key back to first sight: whatever its record was, the
    next call is admitted and starts a new window with count 1, and the
    key is reported to have the whole limit left.  Other keys keep their
    records. *)
Theorem reset_readmits_key now limits ip :
  IsAllowed cfg now (Reset cfg limits ip) ip =
    (<[ip := {| IP := ip; Requests := 1;
                ResetAt := now + Minute; Blocked := false |}]> limits, true) /\
  GetRemaining cfg now (Reset cfg limits ip) ip = RequestsPerMinute cfg /\
  (forall ip', ip' <> ip -> Reset cfg limits ip !! ip' = limits !! ip').
Proof.
  unfold Reset, GetRemaining. rewrite enabled. simpl.
  rewrite (IsAllowed_fresh cfg enabled) by apply lookup_delete_eq.
  rewrite insert_delete_eq, lookup_delete_eq.
  repeat split. intros ip' Hne. now apply lookup_delete_ne.
Qed.

(** X11. The header a client receives: the request that is the [k]-th one of
    its key in the running window, with [k] within the limit, is passed on
    with [X-RateLimit-Remaining] set to the limit minus [k]. *)
Theorem remaining_header_counts_down t ts now now' limits ip :
  limits !! ip = None ->
  Forall (fun u => u <= t + Minute) ts ->
  now <= t + Minute ->
  now' <= t + Minute ->
  2 + Z.of_nat (length ts) <= RequestsPerMinute cfg ->
  RequestsPerMinute cfg < 2 ^ 63 ->
  snd (RateLimitMiddleware cfg now now'
         (fst (run_calls cfg (calls_at Plain ip (t :: ts)) limits)) ip) =
    Next (Some (RequestsPerMinute cfg - (2 + Z.of_nat (length ts)))).
Proof.
  intros He Hall Hnow Hnow' Hlen Hmax.
  destruct (first_calls_allowed cfg enabled ip t ts limits He Hall) as [_ H2];
    [lia | exact Hmax |].
  set (limits1 := fst (run_calls cfg (calls_at Plain ip (t :: ts)) limits)) in *.
  unfold RateLimitMiddleware.
  rewrite (IsAllowed_below cfg enabled now limits1 ip _ H2) by (simpl; (lia || reflexivity)).
  cbn [negb IP Requests ResetAt snd].
  unfold GetRemaining. rewrite enabled, lookup_insert_eq. simpl.
  apply After_false in Hnow'. rewrite Hnow'.
  unfold sub64. rewrite wrap64_id by (unfold in_int64; lia).
  destruct (Z.ltb_spec (RequestsPerMinute cfg - (1 + Z.of_nat (length ts) + 1)) 0); [lia|].
  destruct (Z.leb_spec 0 (RequestsPerMinute cfg - (1 + Z.of_nat (length ts) + 1))); [|lia].
  do 2 f_equal. lia.
Qed.

(** X12. Every record the limiter writes is well formed.  With a limit of at
    least 1, in any state reached from an empty limiter by calls of
    [IsAllowed], the record of a key names that key, its count lies between
    1 and the limit plus 1, and it is blocked exactly when the count is the
    limit plus 1. *)
Theorem records_stay_well_formed cs :
  1 <= RequestsPerMinute cfg < 2 ^ 63 - 1 ->
  Forall (fun c => call_policy c = Plain) cs ->
  forall key e,
    fst (run_calls cfg cs ∅) !! key = Some e -> well_formed cfg key e.
Proof.
  intros Hlim Hplain.
  assert (Hgen : forall limits,
            (forall key e, limits !! key = Some e -> well_formed cfg key e) ->
            forall key e, fst (run_calls cfg cs limits) !! key = Some e ->
                          well_formed cfg key e).
  { induction cs as [|c cs IH]; intros limits Hinv; [exact Hinv|].
    inversion Hplain as [|? ? Hc Hcs]; subst.
    rewrite run_calls_cons. cbn [fst]. apply (IH Hcs).
    intros key e. unfold run_call. rewrite Hc. unfold IsAllowed.
    rewrite enabled. simpl.
    destruct (limits !! call_ip c) as [e0|] eqn:E0.
    - destruct (Hinv _ _ E0) as (Hip & Hcount & Hblocked).
      destruct (After _ _); simpl.
      + destruct (decide (key = call_ip c)) as [->|Hne].
        * rewrite lookup_insert_eq. intros [= <-]. unfold well_formed. simpl.
          repeat split; first [exact Hip | reflexivity | lia | discriminate | (intros; lia)].
        * rewrite lookup_insert_ne by congruence. apply Hinv.
      + destruct (Blocked e0) eqn:Hb; simpl; [apply Hinv|].
        assert (Hle : Requests e0 <= RequestsPerMinute cfg).
        { destruct (Z.eq_dec (Requests e0) (RequestsPerMinute cfg + 1)) as [Heq|]; [|lia].
          apply Hblocked in Heq. congruence. }
        unfold add64. rewrite wrap64_id by (unfold in_int64; lia).
        destruct (Z.ltb_spec (RequestsPerMinute cfg) (Requests e0 + 1)); simpl.
        * destruct (decide (key = call_ip c)) as [->|Hne].
          -- rewrite lookup_insert_eq. intros [= <-]. unfold well_formed. simpl.
             repeat split; first [exact Hip | reflexivity | lia | discriminate | (intros; lia)].
          -- rewrite lookup_insert_ne by congruence. apply Hinv.
        * destruct (decide (key = call_ip c)) as [->|Hne].
          -- rewrite lookup_insert_eq. intros [= <-]. unfold well_formed. simpl.
             repeat split; first [exact Hip | reflexivity | lia | discriminate | (intros; lia)].
          -- rewrite lookup_insert_ne by congruence. apply Hinv.
    - cbn [fst]. destruct (decide (key = call_ip c)) as [->|Hne].
      + rewrite lookup_insert_eq. intros [= <-]. unfold well_formed. simpl.
        repeat split; first [reflexivity | lia | discriminate | (intros; lia)].
      + rewrite lookup_insert_ne by congruence. apply Hinv. }
  apply Hgen. intros key e H. now rewrite lookup_empty in H.
Qed.

End RateReads.

Section RateReadRuns.

Import RateLimit.

Lemma reset_readmits_key_witness :
  let ip := "198.51.100.4"%string in
  let limits := {[ ip := {| IP := ip; Requests := 6; ResetAt := noon + Minute;
                            Blocked := true |} ]} in
  snd (IsAllowed cfg_5_2 (noon + Second) limits ip) = false /\
  snd (IsAllowed cfg_5_2 (noon + Second) (Reset cfg_5_2 limits ip) ip) = true.
Proof.
  intros ip limits. split; [vm_compute; reflexivity|].
  destruct (reset_readmits_key cfg_5_2 eq_refl (noon + Second) limits ip) as (H1 & _ & _).
  exact (f_equal snd H1).
Defined.

Lemma remaining_header_counts_down_witness :
  snd (RateLimitMiddleware cfg_5_2 (noon + 2 * Second) (noon + 2 * Second)
         (fst (run_calls cfg_5_2
                 (calls_at Plain "198.51.100.4" [noon; noon + Second]) ∅))
         "198.51.100.4") = Next (Some 2).
Proof.
  rewrite (remaining_header_counts_down cfg_5_2 eq_refl noon [noon + Second]).
  - reflexivity.
  - apply lookup_empty.
  - repeat constructor; vm_compute; discriminate.
  - vm_compute; discriminate.
  - vm_compute; discriminate.
  - vm_compute; discriminate.
  - reflexivity.
Defined.

Lemma records_stay_well_formed_witness :
  let ip := "198.51.100.4"%string in
  match fst (run_calls cfg_5_2
               (calls_at Plain ip [noon; noon; noon; noon; noon; noon; noon]) ∅) !! ip with
  | Some e => Requests e <= 6
  | None => True
  end.
Proof.
  intros ip.
  destruct (fst (run_calls cfg_5_2
                   (calls_at Plain ip [noon; noon; noon; noon; noon; noon; noon]) ∅) !! ip)
    as [e|] eqn:He; [|exact I].
  assert (Hlim : 1 <= RequestsPerMinute cfg_5_2 < 2 ^ 63 - 1)
    by (vm_compute; split; [discriminate | reflexivity]).
  assert (Hplain : Forall (fun c => call_policy c = Plain)
                     (calls_at Plain ip [noon; noon; noon; noon; noon; noon; noon]))
    by (repeat constructor).
  destruct (records_stay_well_formed cfg_5_2 eq_refl _ Hlim Hplain ip e He)
    as (_ & Hcount & _).
  exact (proj2 Hcount).
Defined.

End RateReadRuns.

(** ** Storage manager: repeated sweeps, the disk, the counters *)

Section StorageSweeps.

Import Storage.

Lemma sweep_all_nothing_due now order : forall s,
  (forall id f, (id, f) ∈ order -> expired now f = false) ->
  fold_left (sweep_one now) order s = s.
Proof.
  induction order as [|[i f] order IH]; intros s Hlive; [reflexivity|].
  cbn [fold_left]. rewrite sweep_one_live by (apply (Hlive i); now left).
  apply IH. intros id f' Hin. apply (Hlive id). now right.
Qed.

(** X13. A sweep that finds no expired record changes nothing at all: the map,
    the disk and the log are as before. *)
Theorem sweep_without_expired_is_silent now w :
  (forall id f, files w !! id = Some f -> expired now f = false) ->
  cleanupExpiredFiles now w = w.
Proof.
  intros Hlive. unfold cleanupExpiredFiles, cleanupExpiredFiles_in, sweep_all.
  rewrite sweep_all_nothing_due.
  - destruct w; reflexivity.
  - intros id f Hin. apply (Hlive id). now apply elem_of_map_to_list.
Qed.

Lemma sweep_without_expired_is_silent_witness :
  cleanupExpiredFiles noon sample_world = sample_world.
Proof.
  apply sweep_without_expired_is_silent.
  intros id f Hf. unfold expired. apply After_false.
  unfold sample_world in Hf. cbn [files] in Hf.
  repeat (apply lookup_insert_Some in Hf as [[_ <-]|[_ Hf]];
          [vm_compute; discriminate|]).
  apply lookup_singleton_Some in Hf as [_ <-]. vm_compute; discriminate.
Defined.

(** X14. Sweeping twice at the same instant is sweeping once: the second run
    removes nothing, touches no file and writes no log entry. *)
Theorem storage_sweep_idempotent now w :
  cleanupExpiredFiles now (cleanupExpiredFiles now w) = cleanupExpiredFiles now w.
Proof.
  set (w1 := cleanupExpiredFiles now w).
  assert (Hlive : forall id f, (id, f) ∈ map_to_list (files w1) -> expired now f = false).
  { intros id f Hin. apply elem_of_map_to_list in Hin.
    unfold w1 in Hin. rewrite cleanup_lookup in Hin.
    destruct (files w !! id) as [f'|]; [|discriminate].
    destruct (expired now f') eqn:E; [discriminate|]. now injection Hin as <-. }
  unfold cleanupExpiredFiles at 1. unfold cleanupExpiredFiles_in, sweep_all.
  rewrite (sweep_all_nothing_due now _ _ Hlive).
  destruct w1; reflexivity.
Qed.

(** X15. A later sweep makes an earlier one redundant as far as the map goes:
    the records left after sweeps at [t1] and then [t2 >= t1] are the
    records left after the sweep at [t2] alone. *)
Theorem later_sweep_subsumes_earlier t1 t2 w :
  t1 <= t2 ->
  files (cleanupExpiredFiles t2 (cleanupExpiredFiles t1 w)) =
    files (cleanupExpiredFiles t2 w).
Proof.
  intros Hle. apply map_eq. intros id. rewrite !cleanup_lookup.
  destruct (files w !! id) as [f|]; [|reflexivity].
  unfold expired. destruct (After t1 (ExpiresAt f)) eqn:E1; [|reflexivity].
  apply After_true in E1.
  assert (E2 : After t2 (ExpiresAt f) = true) by (apply After_true; lia).
  now rewrite E2.
Qed.

Lemma later_sweep_subsumes_earlier_witness :
  files (cleanupExpiredFiles (noon + 10 * Minute)
           (cleanupExpiredFiles (noon + 2 * Minute) sample_world)) = ∅.
Proof.
  rewrite later_sweep_subsumes_earlier.
  - apply map_eq. intros id. rewrite cleanup_lookup, lookup_empty.
    destruct (files sample_world !! id) as [f|] eqn:Hf; [|reflexivity].
    replace (expired (noon + 10 * Minute) f) with true; [reflexivity|].
    symmetry. apply After_true.
    unfold sample_world in Hf. cbn [files] in Hf.
    repeat (apply lookup_insert_Some in Hf as [[_ <-]|[_ Hf]];
            [vm_compute; reflexivity|]).
    apply lookup_singleton_Some in Hf as [_ <-]. vm_compute; reflexivity.
  - vm_compute. discriminate.
Defined.

(** *** The disk *)

Lemma os_Remove_other d path p :
  p <> path -> fst (os_Remove d path) !! p = d !! p.
Proof.
  intros Hne. unfold os_Remove.
  destruct (d !! path) as [[|]|]; simpl; try reflexivity.
  now apply lookup_delete_ne.
Qed.

Lemma os_Remove_gone d path :
  fst (os_Remove d path) !! path = None \/
  (fst (os_Remove d path) !! path = Some Protected /\ d !! path = Some Protected).
Proof.
  unfold os_Remove. destruct (d !! path) as [[|]|] eqn:E; simpl.
  - left. apply lookup_delete_eq.
  - right. now split.
  - now left.
Qed.

Lemma os_Remove_stays_gone d path p :
  d !! p = None \/ d !! p = Some Protected ->
  fst (os_Remove d path) !! p = d !! p.
Proof.
  intros H. destruct (decide (p = path)) as [->|Hne]; [|now apply os_Remove_other].
  unfold os_Remove. destruct H as [H|H]; now rewrite H.
Qed.

Lemma sweep_disk_untouched now order p : forall s,
  (forall id f, (id, f) ∈ order -> expired now f = true -> FilePath f <> p) ->
  sw_disk (fold_left (sweep_one now) order s) !! p = sw_disk s !! p.
Proof.
  induction order as [|[i f] order IH]; intros s Hfree; [reflexivity|].
  cbn [fold_left]. rewrite IH by (intros id f' Hin; apply (Hfree id); now right).
  destruct (expired now f) eqn:E.
  - rewrite sweep_one_disk by exact E. apply os_Remove_other.
    intros ->. apply (Hfree i f); [now left | exact E | reflexivity].
  - now rewrite sweep_one_live.
Qed.

Lemma sweep_disk_stays_gone now order p : forall s,
  sw_disk s !! p = None \/ sw_disk s !! p = Some Protected ->
  sw_disk (fold_left (sweep_one now) order s) !! p = sw_disk s !! p.
Proof.
  induction order as [|[i f] order IH]; intros s H; [reflexivity|].
  cbn [fold_left].
  assert (Hstep : sw_disk (sweep_one now s (i, f)) !! p = sw_disk s !! p).
  { destruct (expired now f) eqn:E.
    - rewrite sweep_one_disk by exact E. now apply os_Remove_stays_gone.
    - now rewrite sweep_one_live. }
  rewrite IH by (now rewrite Hstep). exact Hstep.
Qed.

Lemma sweep_disk_removed now order id f : forall s,
  (id, f) ∈ order ->
  expired now f = true ->
  sw_disk (fold_left (sweep_one now) order s) !! FilePath f = None \/
  (sw_disk (fold_left (sweep_one now) order s) !! FilePath f = Some Protected /\
   sw_disk s !! FilePath f = Some Protected).
Proof.
  induction order as [|[i f'] order IH]; intros s Hin He;
    [now apply elem_of_nil in Hin|].
  cbn [fold_left]. apply elem_of_cons in Hin as [Hin|Hin].
  - injection Hin as <- <-.
    pose proof (os_Remove_gone (sw_disk s) (FilePath f)) as Hgone.
    rewrite <- (sweep_one_disk now s id f He) in Hgone.
    rewrite sweep_disk_stays_gone by tauto. exact Hgone.
  - destruct (IH (sweep_one now s (i, f')) Hin He) as [H|[H1 H2]]; [now left|].
    right. split; [exact H1|]. now apply (sweep_one_protected now s (i, f')).
Qed.

Lemma cleanup_disk_untouched now w p :
  (forall id f, files w !! id = Some f -> expired now f = true -> FilePath f <> p) ->
  disk (cleanupExpiredFiles now w) !! p = disk w !! p.
Proof.
  intros Hfree. unfold cleanupExpiredFiles, cleanupExpiredFiles_in, sweep_all.
  cbn [disk]. rewrite sweep_disk_untouched; [reflexivity|].
  intros id f Hin. apply (Hfree id). now apply elem_of_map_to_list.
Qed.

(** X16. The sweep deletes the files of expired records and nothing else.  A
    path that no expired record refers to is on the disk after the sweep as
    it was before; the file of every expired record is gone after the
    sweep, unless it was there and the system refuses to remove it. *)
Theorem sweep_deletes_only_expired_files order now w :
  order ≡ₚ map_to_list (files w) ->
  let w' := cleanupExpiredFiles_in order now w in
  (forall p,
     (forall id f, files w !! id = Some f -> expired now f = true -> FilePath f <> p) ->
     disk w' !! p = disk w !! p) /\
  (forall id f, files w !! id = Some f -> expired now f = true ->
     disk w' !! FilePath f = None \/
     (disk w' !! FilePath f = Some Protected /\ disk w !! FilePath f = Some Protected)).
Proof.
  intros Hperm w'. subst w'.
  assert (Hmem : forall id f, (id, f) ∈ order <-> files w !! id = Some f).
  { intros id f. rewrite Hperm. apply elem_of_map_to_list. }
  unfold cleanupExpiredFiles_in, sweep_all. cbn [disk]. split.
  - intros p Hfree. rewrite sweep_disk_untouched; [reflexivity|].
    intros id f Hin. apply (Hfree id). now apply Hmem.
  - intros id f Hf He.
    apply (sweep_disk_removed now order id f (sweep_init w)); [now apply Hmem | exact He].
Qed.

Lemma sweep_deletes_only_expired_files_witness :
  let w' := cleanupExpiredFiles (noon + 2 * Minute) sample_world in
  disk w' !! "downloads/a" = None /\
  disk w' !! "downloads/b" = Some Protected /\
  disk w' !! "downloads/d" = Some Regular.
Proof.
  intros w'.
  destruct (sweep_deletes_only_expired_files (map_to_list (files sample_world))
              (noon + 2 * Minute) sample_world) as [Hfree Hgone]; [reflexivity|].
  split; [|split].
  - destruct (Hgone "a"%string (sample_file "a" noon)) as [H|[_ H]];
      [reflexivity | reflexivity | exact H | discriminate H].
  - destruct (Hgone "b"%string (sample_file "b" noon)) as [H|[H _]];
      [reflexivity | reflexivity | | exact H].
    unfold w'. reflexivity.
  - unfold w', cleanupExpiredFiles. rewrite (Hfree "downloads/d"%string); [reflexivity|].
    intros id f Hf He. unfold sample_world in Hf. cbn [files] in Hf.
    repeat (apply lookup_insert_Some in Hf as [[_ <-]|[_ Hf]];
            [first [discriminate | vm_compute in He; discriminate He]|]).
    apply lookup_singleton_Some in Hf as [_ <-].
    first [discriminate | vm_compute in He; discriminate He].
Defined.

(** X17. A path no tracked record refers to is never deleted, however many
    sweeps run.  In particular the file of a record that [SaveFile] has
    overwritten under the same id stays on the disk. *)
Theorem untracked_files_are_never_deleted ts p : forall w,
  (forall id f, files w !! id = Some f -> FilePath f <> p) ->
  disk (run_sweeps ts w) !! p = disk w !! p.
Proof.
  induction ts as [|t ts IH]; intros w Hfree; [reflexivity|].
  unfold run_sweeps in *. cbn [fold_left]. rewrite IH.
  - apply cleanup_disk_untouched. intros id f Hf _. now apply (Hfree id).
  - intros id f. rewrite cleanup_lookup.
    destruct (files w !! id) as [f'|] eqn:Hf'; [|discriminate].
    destruct (expired t f'); [discriminate|]. intros [= <-]. now apply (Hfree id).
Qed.

Lemma untracked_files_are_never_deleted_witness :
  let old := sample_file "old.mp4" 0 in
  let new := sample_file "new.mp4" 0 in
  let w0 := {| files := ∅;
               disk := {[ "downloads/old.mp4" := Regular; "downloads/new.mp4" := Regular ]};
               logger := Some [] |} in
  let w := SaveFile cfg_ttl60 (noon + Second) "f1" new (SaveFile cfg_ttl60 noon "f1" old w0) in
  disk (run_sweeps [noon + 5 * Minute; noon + 10 * Minute] w) !! "downloads/old.mp4" =
    Some Regular.
Proof.
  intros old new w0 w.
  rewrite untracked_files_are_never_deleted; [reflexivity|].
  intros id f Hf. unfold w, SaveFile in Hf. cbn [files] in Hf.
  destruct (decide (id = "f1"%string)) as [->|Hne].
  - rewrite lookup_insert_eq in Hf. injection Hf as <-. discriminate.
  - rewrite !lookup_insert_ne in Hf by congruence. discriminate Hf.
Defined.

End StorageSweeps.

Section StorageCounters.

Import Storage.

Lemma NoDup_fst_filter {A} (P : string * A -> Prop) `{!forall x, Decision (P x)}
    (l : list (string * A)) :
  NoDup (l.*1) -> NoDup ((filter P l).*1).
Proof.
  induction l as [|x l IH]; intros Hnd; [constructor|].
  apply NoDup_cons in Hnd as [Hx Hnd].
  rewrite filter_cons. destruct (decide (P x)); [|now apply IH].
  rewrite fmap_cons. apply NoDup_cons. split; [|now apply IH].
  intros Hin. apply Hx.
  apply list_elem_of_fmap in Hin as (y & -> & Hy).
  apply list_elem_of_fmap. exists y. split; [reflexivity|].
  now apply list_elem_of_filter in Hy as [_ Hy].
Qed.

Lemma size_filter_list {A} (P : string * A -> Prop) `{!forall x, Decision (P x)}
    (m : gmap string A) :
  size (filter P m) = length (filter P (map_to_list m)).
Proof.
  rewrite map_filter_alt, <- length_map_to_list.
  apply Permutation_length, map_to_list_to_map, NoDup_fst_filter, NoDup_fst_map_to_list.
Qed.

Lemma count_expired_fold now (l : list (string * DownloadedFile)) : forall c,
  0 <= c ->
  c + Z.of_nat (length l) < 2 ^ 63 ->
  fold_left (fun count kv => if expired now (snd kv) then add64 count 1 else count) l c =
    c + Z.of_nat (length (filter (fun kv => expired now (snd kv) = true) l)).
Proof.
  induction l as [|x l IH]; intros c Hc Hlen; [simpl; lia|].
  cbn [fold_left]. rewrite filter_cons.
  cbn [length] in Hlen.
  destruct (expired now (snd x)) eqn:E.
  - rewrite decide_True by reflexivity. cbn [length].
    unfold add64. rewrite wrap64_id by (unfold in_int64; lia).
    rewrite IH by lia. lia.
  - rewrite decide_False by discriminate. rewrite IH by lia. reflexivity.
Qed.

Lemma cleanup_files_filter now w :
  files (cleanupExpiredFiles now w) =
    filter (fun kv => ~ expired now (snd kv) = true) (files w).
Proof.
  apply map_eq. intros id. rewrite cleanup_lookup.
  apply option_eq. intros f. rewrite map_lookup_filter_Some. simpl.
  destruct (files w !! id) as [f'|]; [|split; [discriminate | intros [? _]; discriminate]].
  destruct (expired now f') eqn:E.
  - split; [discriminate | intros [[= <-] H]; congruence].
  - split; [intros [= <-]; split; [reflexivity | congruence] | now intros [[= <-] _]].
Qed.

(** X18. The counters add up.  What [GetExpiredFilesCount] reports at some
    instant is exactly the number of records a sweep at that instant takes
    out of the map: the tracked count after the sweep is the tracked count
    before less the expired count, and the expired count after it is 0. *)
Theorem counters_add_up now w :
  Z.of_nat (size (files w)) < 2 ^ 63 ->
  GetTrackedFilesCount (cleanupExpiredFiles now w) =
    GetTrackedFilesCount w - GetExpiredFilesCount now w /\
  GetExpiredFilesCount now (cleanupExpiredFiles now w) = 0 /\
  0 <= GetExpiredFilesCount now w <= GetTrackedFilesCount w.
Proof.
  intros Hsize.
  assert (Hcount : forall w0, Z.of_nat (size (files w0)) < 2 ^ 63 ->
            GetExpiredFilesCount now w0 =
              Z.of_nat (size (filter (fun kv => expired now (snd kv) = true) (files w0)))).
  { intros w0 H0. unfold GetExpiredFilesCount, GetExpiredFilesCount_in.
    rewrite count_expired_fold by (rewrite ?length_map_to_list; lia).
    now rewrite size_filter_list. }
  assert (Hsplit : size (files w) =
            (size (filter (fun kv => expired now (snd kv) = true) (files w)) +
             size (files (cleanupExpiredFiles now w)))%nat).
  { rewrite cleanup_files_filter.
    rewrite <- map_size_disj_union by apply map_disjoint_filter_complement.
    now rewrite map_filter_union_complement. }
  unfold GetTrackedFilesCount. rewrite (Hcount w Hsize).
  split; [lia | split; [|lia]].
  rewrite Hcount by lia.
  replace (filter _ (files (cleanupExpiredFiles now w))) with (∅ : gmap string DownloadedFile);
    [reflexivity|].
  symmetry. apply map_eq. intros id. rewrite lookup_empty.
  apply map_lookup_filter_None. destruct (files (cleanupExpiredFiles now w) !! id) as [f|] eqn:Hf;
    [right | now left].
  intros f' [= <-]. simpl. rewrite cleanup_lookup in Hf.
  destruct (files w !! id) as [f0|]; [|discriminate].
  destruct (expired now f0) eqn:E; [discriminate|]. injection Hf as <-. congruence.
Qed.

Lemma counters_add_up_witness :
  GetExpiredFilesCount (noon + 2 * Minute) sample_world = 3 /\
  GetTrackedFilesCount (cleanupExpiredFiles (noon + 2 * Minute) sample_world) = 1.
Proof.
  destruct (counters_add_up (noon + 2 * Minute) sample_world) as (H1 & _ & _).
  - vm_compute. reflexivity.
  - split; [reflexivity|]. rewrite H1. reflexivity.
Defined.

(** X19. The size ceiling.  With a configured maximum of [0 <= MB < 2^43]
    megabytes the ceiling is [MB * 1048576] bytes; the test made on the
    announced size before the download and [ValidateFileSize], made on the
    real size after it, then accept the same positive sizes.  A size of 0
    or less always passes both. *)
Theorem size_ceiling cfg :
  0 <= MaxVideoSizeMB cfg < 2 ^ 43 ->
  maxSizeBytes cfg = MaxVideoSizeMB cfg * 1048576 /\
  (forall size, ValidateFileSize cfg size = (size <=? MaxVideoSizeMB cfg * 1048576)) /\
  (forall size, 0 < size -> Handler.sizeGate cfg size = ValidateFileSize cfg size) /\
  (forall size, size <= 0 ->
     Handler.sizeGate cfg size = true /\ ValidateFileSize cfg size = true).
Proof.
  intros Hmb.
  assert (Hmax : maxSizeBytes cfg = MaxVideoSizeMB cfg * 1048576).
  { unfold maxSizeBytes, mul64.
    rewrite (wrap64_id (MaxVideoSizeMB cfg * 1024)) by (unfold in_int64; lia).
    rewrite wrap64_id by (unfold in_int64; lia). lia. }
  split; [exact Hmax|]. unfold ValidateFileSize, Handler.sizeGate. rewrite Hmax.
  split; [reflexivity | split].
  - intros size Hpos. destruct (Z.ltb_spec 0 size); [|lia].
    destruct (Z.ltb_spec (MaxVideoSizeMB cfg * 1048576) size),
             (Z.leb_spec size (MaxVideoSizeMB cfg * 1048576)); simpl; (reflexivity || lia).
  - intros size Hle. destruct (Z.ltb_spec 0 size); [lia|].
    split; [reflexivity|]. apply Z.leb_le. lia.
Qed.

Lemma size_ceiling_witness :
  ValidateFileSize cfg_ttl60 314572800 = true /\
  ValidateFileSize cfg_ttl60 314572801 = false /\
  Handler.sizeGate cfg_ttl60 314572801 = false.
Proof.
  destruct (size_ceiling cfg_ttl60) as (_ & H2 & H3 & _).
  - vm_compute. split; [discriminate | reflexivity].
  - split; [|split].
    + rewrite H2. reflexivity.
    + rewrite H2. reflexivity.
    + rewrite H3 by reflexivity. rewrite H2. reflexivity.
Defined.

End StorageCounters.

(** ** Validator: the allow-list in full, file names *)

Section ValidatorMore.

Import Validator.

Local Open Scope string_scope.

Local Arguments String.append !_ _ / : simpl nomatch.

Lemma HasPrefix_substring s d : HasPrefix s d = true -> substring_of d s.
Proof.
  intros H. exists "", (slice_from (String.length d) s).
  simpl. now apply HasPrefix_split.
Qed.

Lemma Contains_substring s : forall d, Contains s d = true -> substring_of d s.
Proof.
  induction s as [|c s IH]; intros d H; rewrite Contains_unfold in H;
    apply orb_true_iff in H as [H|H].
  - now apply HasPrefix_substring.
  - discriminate.
  - now apply HasPrefix_substring.
  - destruct (IH d H) as (before & after & ->).
    now exists (String c before), after.
Qed.

Lemma Contains_iff s d : Contains s d = true <-> substring_of d s.
Proof.
  split; [apply Contains_substring|].
  intros (before & after & ->). apply Contains_intro.
Qed.

Lemma HasSuffix_unfold s x :
  HasSuffix s x =
    (String.eqb s x || match s with
                       | EmptyString => false
                       | String _ s' => HasSuffix s' x
                       end)%bool.
Proof. now destruct s. Qed.

Lemma HasSuffix_substring s : forall x, HasSuffix s x = true -> exists before, s = before ++ x.
Proof.
  induction s as [|c s IH]; intros x H; rewrite HasSuffix_unfold in H;
    apply orb_true_iff in H as [H|H].
  - apply String.eqb_eq in H. subst. now exists "".
  - discriminate.
  - apply String.eqb_eq in H. subst. now exists "".
  - destruct (IH x H) as [before ->]. now exists (String c before).
Qed.

Lemma string_app_assoc a : forall b c : string, (a ++ b) ++ c = a ++ b ++ c.
Proof. induction a as [|x a IH]; intros b c; simpl; [reflexivity | now rewrite IH]. Qed.

Lemma string_app_nil_r a : a ++ "" = a.
Proof. induction a as [|x a IH]; simpl; [reflexivity | now rewrite IH]. Qed.

(** The three tests of the loop come to one: each of them holds only if
    the domain occurs in the host. *)
Lemma domain_tests_are_containment host cd :
  (String.eqb host cd || HasSuffix host (String "." cd) || Contains host cd)%bool = true <->
  substring_of cd host.
Proof.
  rewrite <- Contains_iff. split; [|intros ->; now rewrite !orb_true_r].
  intros H. apply orb_true_iff in H as [H|H]; [|exact H].
  apply orb_true_iff in H as [H|H].
  - apply String.eqb_eq in H. subst. apply Contains_iff.
    exists "", "". simpl. now rewrite string_app_nil_r.
  - apply HasSuffix_substring in H as [before ->]. apply Contains_iff.
    exists (before ++ "."), "". rewrite string_app_nil_r.
    now rewrite string_app_assoc.
Qed.

Lemma match_domains_cons host a rest :
  match_domains host (a :: rest) =
    if Nat.eqb (String.length (ToLower (TrimSpace a))) 0 then match_domains host rest
    else if (String.eqb host (ToLower (TrimSpace a))
             || HasSuffix host (String "." (ToLower (TrimSpace a)))
             || Contains host (ToLower (TrimSpace a)))%bool
    then true else match_domains host rest.
Proof. reflexivity. Qed.

Lemma match_domains_iff host allowedDomains :
  match_domains host allowedDomains = true <->
  exists domain, domain ∈ allowedDomains /\
    ToLower (TrimSpace domain) <> "" /\
    substring_of (ToLower (TrimSpace domain)) host.
Proof.
  induction allowedDomains as [|a rest IH].
  - split; [discriminate | intros (d & Hd & _); now apply elem_of_nil in Hd].
  - rewrite match_domains_cons.
    destruct (Nat.eqb (String.length (ToLower (TrimSpace a))) 0) eqn:En.
    + assert (Ea : ToLower (TrimSpace a) = "")
        by (destruct (ToLower (TrimSpace a)); [reflexivity | discriminate]).
      rewrite IH. split.
      * intros (d & Hd & Hne & Hs). exists d. split; [now right | now split].
      * intros (d & Hd & Hne & Hs). apply elem_of_cons in Hd as [->|Hd];
          [congruence | now exists d].
    + assert (Ea : ToLower (TrimSpace a) <> "")
        by (intros E; rewrite E in En; discriminate).
      destruct (String.eqb host (ToLower (TrimSpace a))
                || HasSuffix host (String "." (ToLower (TrimSpace a)))
                || Contains host (ToLower (TrimSpace a)))%bool eqn:Et.
      * split; [|reflexivity]. intros _. exists a.
        split; [now left | split; [exact Ea|]].
        now apply domain_tests_are_containment.
      * rewrite IH. split.
        -- intros (d & Hd & Hne & Hs). exists d. split; [now right | now split].
        -- intros (d & Hd & Hne & Hs). apply elem_of_cons in Hd as [->|Hd];
             [|now exists d].
           apply domain_tests_are_containment in Hs. congruence.
Qed.

(** X20. For ASCII hosts and ASCII allowed domains, [ValidateURL] accepts a
    URL exactly when it parses and its host, with a leading ["www."] dropped
    and then lowercased, contains, anywhere, some allowed domain that is not
    blank once trimmed and lowercased.  The tests for equality and for a
    suffix after a dot add nothing to the containment test. *)
Theorem ValidateURL_accepts_iff (url_Parse : string -> option string)
    videoURL allowedDomains :
  (forall host, url_Parse videoURL = Some host -> is_ascii host = true) ->
  Forall (fun d => is_ascii d = true) allowedDomains ->
  ValidateURL url_Parse videoURL allowedDomains = true <->
  exists host domain,
    url_Parse videoURL = Some host /\
    domain ∈ allowedDomains /\
    ToLower (TrimSpace domain) <> "" /\
    substring_of (ToLower (TrimSpace domain)) (normalise_host host).
Proof.
  intros _ _.
  unfold ValidateURL. destruct (url_Parse videoURL) as [host|].
  - rewrite match_domains_iff. split.
    + intros (d & H1 & H2 & H3). now exists host, d.
    + intros (h & d & [= <-] & H1 & H2 & H3). now exists d.
  - split; [discriminate | intros (h & d & H & _); discriminate].
Qed.

Lemma ValidateURL_accepts_iff_witness :
  ValidateURL (fun _ => Some "m.vimeo.com.example.net") "https://m.vimeo.com.example.net/1"
    ["youtube.com"; "  "; " Vimeo.COM"] = true.
Proof.
  apply (ValidateURL_accepts_iff (fun _ => Some "m.vimeo.com.example.net")).
  - intros host [= <-]. reflexivity.
  - repeat constructor.
  - exists "m.vimeo.com.example.net", " Vimeo.COM".
    split; [reflexivity | split; [|split]].
    + apply elem_of_cons. right. apply elem_of_cons. right.
      apply elem_of_cons. now left.
    + discriminate.
    + exists "m.", ".example.net". reflexivity.
Defined.

(** *** SanitizeFilename *)

Lemma replace_from_byte c fuel : forall s,
  (String.length s <= fuel)%nat ->
  replace_from fuel s (String c "") "_" =
    map_bytes (fun a => if Ascii.eqb c a then "_"%char else a) s.
Proof.
  induction fuel as [|fuel IH]; intros s Hlen.
  - destruct s; [reflexivity | simpl in Hlen; lia].
  - destruct s as [|a s]; [reflexivity|]. simpl in Hlen. simpl.
    destruct (Ascii.eqb c a); simpl; f_equal; apply IH; lia.
Qed.

Lemma ReplaceAll_byte c s :
  c <> "_"%char ->
  ReplaceAll s (String c "") "_" =
    map_bytes (fun a => if Ascii.eqb c a then "_"%char else a) s.
Proof.
  intros Hne. unfold ReplaceAll.
  assert (H : String.eqb (String c "") "_" = false).
  { apply String.eqb_neq. congruence. }
  rewrite H. simpl. now apply replace_from_byte.
Qed.

Lemma map_bytes_length f s : String.length (map_bytes f s) = String.length s.
Proof. induction s as [|c s IH]; simpl; [reflexivity | now rewrite IH]. Qed.

Lemma SanitizeFilename_bytes s :
  SanitizeFilename s = map_bytes sanitize_byte s.
Proof.
  unfold SanitizeFilename, dangerousChars. cbn [fold_left].
  rewrite !ReplaceAll_byte by discriminate.
  induction s as [|a s IH]; [reflexivity|].
  cbn [map_bytes]. f_equal; [|exact IH].
  destruct a as [[] [] [] [] [] [] [] []]; reflexivity.
Qed.

Lemma sanitize_byte_safe c : is_dangerous (sanitize_byte c) = false.
Proof. destruct c as [[] [] [] [] [] [] [] []]; reflexivity. Qed.

(** X21. [SanitizeFilename] replaces byte for byte: the result has the length of
    the name, holds none of the ten dangerous bytes (so no path separator
    and no NUL), and keeps every other byte in its place; a name without a
    dangerous byte comes back unchanged, and sanitizing twice is sanitizing
    once. *)
Theorem SanitizeFilename_is_safe filename :
  String.length (SanitizeFilename filename) = String.length filename /\
  all_bytes (fun c => negb (is_dangerous c)) (SanitizeFilename filename) = true /\
  SanitizeFilename filename = map_bytes sanitize_byte filename /\
  (all_bytes (fun c => negb (is_dangerous c)) filename = true ->
     SanitizeFilename filename = filename) /\
  SanitizeFilename (SanitizeFilename filename) = SanitizeFilename filename.
Proof.
  rewrite !SanitizeFilename_bytes.
  assert (Hsafe : forall s, all_bytes (fun c => negb (is_dangerous c))
                              (map_bytes sanitize_byte s) = true).
  { induction s as [|c s IH]; simpl; [reflexivity|].
    now rewrite sanitize_byte_safe, IH. }
  assert (Hid : forall s, all_bytes (fun c => negb (is_dangerous c)) s = true ->
                          map_bytes sanitize_byte s = s).
  { induction s as [|c s IH]; simpl; [reflexivity|].
    intros H. apply andb_true_iff in H as [Hc Hs].
    rewrite (IH Hs). unfold sanitize_byte.
    apply negb_true_iff in Hc. now rewrite Hc. }
  split; [apply map_bytes_length | split; [apply Hsafe | split; [reflexivity | split]]].
  - apply Hid.
  - apply Hid, Hsafe.
Qed.

End ValidatorMore.

Section ValidatorTruncate.

Import Validator.

Local Open Scope string_scope.

Local Arguments String.append !_ _ / : simpl nomatch.

Lemma wrap64_bounds z : in_int64 (wrap64 z).
Proof.
  unfold in_int64, wrap64.
  pose proof (Z.mod_pos_bound (z + 2 ^ 63) (2 ^ 64) ltac:(lia)). lia.
Qed.

Lemma last_index_bounds sub s : forall i best,
  last_index s sub i best = best \/
  (i <= last_index s sub i best <= i + Z.of_nat (String.length s))%Z.
Proof.
  induction s as [|c s IH]; intros i best; simpl last_index.
  - destruct (HasPrefix "" sub); [right; simpl; lia | now left].
  - destruct (HasPrefix (String c s) sub).
    + destruct (IH (i + 1)%Z i) as [H|H]; right; cbn [String.length]; lia.
    + destruct (IH (i + 1)%Z best) as [H|H]; [now left|].
      right. cbn [String.length]. lia.
Qed.

Lemma LastIndex_bounds s sub :
  LastIndex s sub = (-1)%Z \/ (0 <= LastIndex s sub <= Z.of_nat (String.length s))%Z.
Proof.
  unfold LastIndex. destruct (last_index_bounds sub s 0 (-1)) as [H|H]; [now left|].
  right. lia.
Qed.

Lemma length_app_string a : forall b,
  String.length (a ++ b) = (String.length a + String.length b)%nat.
Proof. induction a as [|c a IH]; intros b; simpl; [reflexivity | now rewrite IH]. Qed.

Lemma length_take_bytes n : forall s,
  (n <= String.length s)%nat -> String.length (take_bytes n s) = n.
Proof.
  induction n as [|n IH]; intros s H; [now destruct s|].
  destruct s as [|c s]; simpl in *; [lia|]. rewrite IH; lia.
Qed.

Lemma length_slice_from n : forall s,
  (n <= String.length s)%nat ->
  String.length (slice_from n s) = (String.length s - n)%nat.
Proof.
  induction n as [|n IH]; intros s H; [simpl; lia|].
  destruct s as [|c s]; simpl in *; [lia|]. now rewrite IH by lia.
Qed.

Lemma slice_to_ok n s :
  (0 <= n <= Z.of_nat (String.length s))%Z ->
  slice_to n s = Some (take_bytes (Z.to_nat n) s).
Proof.
  intros H. unfold slice_to.
  destruct (Z.ltb_spec n 0); [lia|].
  destruct (Z.ltb_spec (Z.of_nat (String.length s)) n); [lia | reflexivity].
Qed.

(** X22. [TruncateFilename] of an ASCII name with a bound of 0 or more.  The result
    has [min (length, maxLen)] bytes.  A name within the bound is returned
    as it is.  A longer name is cut to its first [maxLen] bytes, except when
    it has a dot and the part from its last dot on is shorter than
    [maxLen]: then that part is kept whole and the front is cut to fit. *)
Theorem TruncateFilename_fits filename maxLen :
  is_ascii filename = true ->
  (0 <= maxLen)%Z ->
  (Z.of_nat (String.length filename) < 2 ^ 63)%Z ->
  exists result,
    TruncateFilename filename maxLen = Some result /\
    Z.of_nat (String.length result) = Z.min (Z.of_nat (String.length filename)) maxLen /\
    ((Z.of_nat (String.length filename) <= maxLen)%Z -> result = filename) /\
    ((maxLen < Z.of_nat (String.length filename))%Z ->
       let ext := slice_from (Z.to_nat (LastIndex filename ".")) filename in
       if ((LastIndex filename "." =? -1) || (maxLen <=? Z.of_nat (String.length ext)))%Z
       then result = take_bytes (Z.to_nat maxLen) filename
       else result =
              take_bytes (Z.to_nat (maxLen - Z.of_nat (String.length ext))) filename ++ ext).
Proof.
  intros _ Hmax Hlen. unfold TruncateFilename.
  destruct (Z.leb_spec (Z.of_nat (String.length filename)) maxLen) as [Hshort|Hlong].
  - exists filename. repeat split; [lia | lia].
  - assert (Hcut : exists result,
              slice_to maxLen filename = Some result /\
              result = take_bytes (Z.to_nat maxLen) filename /\
              Z.of_nat (String.length result) = maxLen).
    { eexists. split; [apply slice_to_ok; lia | split; [reflexivity|]].
      rewrite length_take_bytes by lia. lia. }
    destruct Hcut as (cut & Hcut & Hcut' & Hcutlen).
    destruct (LastIndex_bounds filename ".") as [Hdot|Hdot].
    + rewrite Hdot. simpl Z.eqb. cbv iota. exists cut.
      split; [exact Hcut | split; [lia | split; [lia|]]].
      intros _. simpl. exact Hcut'.
    + destruct (Z.eqb_spec (LastIndex filename ".") (-1)) as [E|_]; [lia|].
      set (ext := slice_from (Z.to_nat (LastIndex filename ".")) filename).
      assert (Hext : Z.of_nat (String.length ext) =
                     (Z.of_nat (String.length filename) - LastIndex filename ".")%Z).
      { unfold ext. rewrite length_slice_from by lia. lia. }
      unfold sub64.
      rewrite wrap64_id by (unfold in_int64; lia).
      destruct (Z.leb_spec (maxLen - Z.of_nat (String.length ext)) 0) as [Hfit|Hfit].
      * exists cut. split; [exact Hcut | split; [lia | split; [lia|]]].
        intros _. cbv zeta. fold ext.
        destruct (Z.leb_spec maxLen (Z.of_nat (String.length ext))); [|lia].
        simpl. exact Hcut'.
      * rewrite slice_to_ok by lia.
        eexists. split; [reflexivity | split; [|split; [lia|]]].
        -- rewrite length_app_string, length_take_bytes by lia. lia.
        -- intros _. cbv zeta. fold ext.
           destruct (Z.leb_spec maxLen (Z.of_nat (String.length ext))); [lia|].
           reflexivity.
Qed.

Lemma TruncateFilename_fits_witness :
  TruncateFilename "holiday-video.mp4" 10 = Some "holida.mp4" /\
  TruncateFilename "archive.tar" 3 = Some "arc" /\
  TruncateFilename "clip.mp4" 20 = Some "clip.mp4".
Proof.
  split; [|split].
  - destruct (TruncateFilename_fits "holiday-video.mp4" 10) as (r & -> & _ & _ & H);
      [reflexivity | lia | vm_compute; reflexivity |].
    f_equal. apply H. reflexivity.
  - destruct (TruncateFilename_fits "archive.tar" 3) as (r & -> & _ & _ & H);
      [reflexivity | lia | vm_compute; reflexivity |].
    f_equal. apply H. reflexivity.
  - destruct (TruncateFilename_fits "clip.mp4" 20) as (r & -> & _ & H & _);
      [reflexivity | lia | vm_compute; reflexivity |].
    f_equal. apply H. vm_compute. discriminate.
Defined.

(** X23. With a negative bound [TruncateFilename] never returns: every path
    through it ends in a slice bound that is out of range. *)
Theorem TruncateFilename_negative_faults filename maxLen :
  (- 2 ^ 63 <= maxLen < 0)%Z ->
  (Z.of_nat (String.length filename) < 2 ^ 62)%Z ->
  TruncateFilename filename maxLen = None.
Proof.
  intros Hmax Hlen. unfold TruncateFilename.
  destruct (Z.leb_spec (Z.of_nat (String.length filename)) maxLen); [lia|].
  assert (Hcut : slice_to maxLen filename = None).
  { unfold slice_to. destruct (Z.ltb_spec maxLen 0); [reflexivity | lia]. }
  destruct (Z.eqb_spec (LastIndex filename ".") (-1)); [exact Hcut|].
  destruct (LastIndex_bounds filename ".") as [Hdot|Hdot]; [contradiction|].
  set (ext := slice_from (Z.to_nat (LastIndex filename ".")) filename).
  assert (Hext : (0 <= Z.of_nat (String.length ext) <= Z.of_nat (String.length filename))%Z).
  { unfold ext. rewrite length_slice_from by lia. lia. }
  destruct (Z.leb_spec (sub64 maxLen (Z.of_nat (String.length ext))) 0); [exact Hcut|].
  assert (Hbig : (Z.of_nat (String.length filename)
                  < sub64 maxLen (Z.of_nat (String.length ext)))%Z).
  { unfold sub64 in *.
    destruct (wrap64_congr (maxLen - Z.of_nat (String.length ext))) as [k Hk].
    pose proof (wrap64_bounds (maxLen - Z.of_nat (String.length ext))) as Hr.
    unfold in_int64 in Hr. rewrite Hk in *. lia. }
  unfold slice_to.
  destruct (Z.ltb_spec (sub64 maxLen (Z.of_nat (String.length ext))) 0); [reflexivity|].
  destruct (Z.ltb_spec (Z.of_nat (String.length filename))
              (sub64 maxLen (Z.of_nat (String.length ext)))); [reflexivity | lia].
Qed.

Lemma TruncateFilename_negative_faults_witness :
  TruncateFilename "clip.mp4" (-1) = None.
Proof.
  apply TruncateFilename_negative_faults.
  - lia.
  - vm_compute. reflexivity.
Defined.

End ValidatorTruncate.
